(** * MiniChess 4x4: rules engine and tabular learning agent

    Shallow embedding of [PLE3/minichess.py].

    - The board is the 4x4 numpy array of the source, kept as a list of rows
      of integer piece codes; indexing follows numpy (negative indices wrap,
      anything else out of range raises, here [None]).
    - Table values are Python floats in the source; they are idealised as
      exact rationals [Q], and the [-np.inf] sentinel is a constructor of
      its own.
    - The random draws of [np.random] are explicit inputs.
    - The board handed to the agent is a reference into a store of arrays,
      so that [tablero.copy()] and the writes that follow can be told apart
      from writes to the live board. *)

From Stdlib Require Import ZArith QArith Lia Lqa Ascii.
From stdpp Require Import base option list strings gmap pretty.

Local Open Scope Z_scope.

(** ** Constants of the module *)

Definition N_FILAS : Z := 4.
Definition N_COLS : Z := 4.

Definition PEON : Z := 1.
Definition TORRE : Z := 5.
Definition REY : Z := 6.

(** ** Board model *)

Abbreviation pos := (Z * Z)%type.
Abbreviation mov := (pos * pos)%type.
Abbreviation tablero := (list (list Z)).

(** numpy index normalisation along an axis of length [n]: indices in
    [0, n) are taken as they are, indices in [-n, 0) count from the end,
    everything else is an IndexError. *)
Definition indice (n : nat) (i : Z) : option nat :=
  if decide (0 ≤ i < Z.of_nat n) then Some (Z.to_nat i)
  else if decide (- Z.of_nat n ≤ i < 0) then Some (Z.to_nat (i + Z.of_nat n))
  else None.

(** [tablero[p]] *)
Definition leer (t : tablero) (p : pos) : option Z :=
  i ← indice (length t) p.1;
  fila ← t !! i;
  j ← indice (length fila) p.2;
  fila !! j.

(** [tablero[p] = v] *)
Definition escribir (t : tablero) (p : pos) (v : Z) : option tablero :=
  i ← indice (length t) p.1;
  fila ← t !! i;
  j ← indice (length fila) p.2;
  Some (<[i := <[j := v]> fila]> t).

(** Shape (N_FILAS, N_COLS), the shape of every array the source builds. *)
Definition forma (t : tablero) : Prop :=
  length t = Z.to_nat N_FILAS ∧ Forall (λ fila, length fila = Z.to_nat N_COLS) t.

Definition en_tablero (p : pos) : Prop :=
  0 ≤ p.1 < N_FILAS ∧ 0 ≤ p.2 < N_COLS.

(** Total reader used to state properties of well-shaped boards. *)
Definition celda (t : tablero) (p : pos) : Z := default 0 (leer t p).

(** [JuegoMiniChess.__inicializar_tablero] *)
Definition inicializar_tablero : tablero :=
  [ [TORRE; REY; 0; 0];
    [PEON; 0; 0; 0];
    [0; 0; 0; - PEON];
    [0; 0; - REY; - TORRE] ].

(** The legal piece codes. *)
Definition pieza_legal (z : Z) : Prop :=
  z = 0 ∨ z = PEON ∨ z = - PEON ∨ z = TORRE ∨ z = - TORRE ∨ z = REY ∨ z = - REY.

Definition tablero_legal (t : tablero) : Prop :=
  forma t ∧ Forall (Forall pieza_legal) t.

(** ** Serialization *)

(** [tablero.reshape(n)]: row-major flattening; the sizes must agree, and
    [-1] asks numpy to infer the size. *)
Definition reshape (t : tablero) (n : Z) : option (list Z) :=
  let plano := concat t in
  if decide (n = -1) then Some plano
  else if decide (Z.of_nat (length plano) = n) then Some plano
  else None.

(** [str] of a one-dimensional float array whose entries are integral, in
    numpy's positional format: every entry is printed as its integer part
    followed by a dot, right-justified to the width of the widest integer
    part (sign included), the entries separated by one space and enclosed
    in brackets. This is numpy's output as long as it neither switches to
    exponents nor wraps the line, which covers the piece codes. *)
Definition ancho (l : list Z) : nat :=
  max_list (map (λ z, String.length (pretty z)) l).

Fixpoint espacios (n : nat) : string :=
  match n with
  | O => ""
  | S n' => String " "%char (espacios n')
  end.

Definition formatea (w : nat) (z : Z) : string :=
  espacios (w - String.length (pretty z)) +:+ pretty z +:+ ".".

Definition str_ndarray (l : list Z) : string :=
  "[" +:+ String.concat " " (map (formatea (ancho l)) l) +:+ "]".

(** [JuegoMiniChess._serializa_estado] *)
Definition _serializa_estado (t : tablero) (n_filas n_cols : Z) : option string :=
  plano ← reshape t (n_cols * n_filas);
  Some (str_ndarray plano).

(** ** Move generator *)

(** [0 <= i < n] *)
Definition en_rango (n i : Z) : bool := bool_decide (0 ≤ i < n).

(** [range(n)] *)
Definition rango (n : Z) : list Z := Z.of_nat <$> seq 0 (Z.to_nat n).

(** [JuegoMiniChess.__movimientos_peon] *)
Definition __movimientos_peon (t : tablero) (origen : pos) (jugador : Z)
  : option (list mov) :=
  let '(i, j) := origen in
  let direccion := if decide (jugador = 1) then 1 else -1 in
  let nueva_i := i + direccion in
  avance ←
    (if en_rango N_FILAS nueva_i then
       c ← leer t (nueva_i, j);
       Some (if decide (c = 0) then [(origen, (nueva_i, j))] else [])
     else Some []);
  let nueva_j := j - 1 in
  izquierda ←
    (if en_rango N_FILAS nueva_i && en_rango N_COLS nueva_j then
       c ← leer t (nueva_i, nueva_j);
       Some (if decide (c * jugador < 0) then [(origen, (nueva_i, nueva_j))] else [])
     else Some []);
  let nueva_j := j + 1 in
  derecha ←
    (if en_rango N_FILAS nueva_i && en_rango N_COLS nueva_j then
       c ← leer t (nueva_i, nueva_j);
       Some (if decide (c * jugador < 0) then [(origen, (nueva_i, nueva_j))] else [])
     else Some []);
  Some (avance ++ izquierda ++ derecha).

(** The [while] loop of [__movimientos_torre] along one direction, from the
    cell [(nueva_i, nueva_j)]. Each turn of the loop spends one unit of
    [fuel]; running out of it is [None], like an IndexError. *)
Fixpoint rayo (fuel : nat) (t : tablero) (origen : pos) (jugador : Z)
    (di dj nueva_i nueva_j : Z) : option (list mov) :=
  match fuel with
  | O => None
  | S fuel' =>
      if en_rango N_FILAS nueva_i && en_rango N_COLS nueva_j then
        casilla ← leer t (nueva_i, nueva_j);
        if decide (casilla = 0) then
          resto ← rayo fuel' t origen jugador di dj (nueva_i + di) (nueva_j + dj);
          Some ((origen, (nueva_i, nueva_j)) :: resto)
        else if decide (casilla * jugador < 0) then
          Some [(origen, (nueva_i, nueva_j))]
        else Some []
      else Some []
  end.

Definition direcciones_torre : list (Z * Z) := [(-1, 0); (1, 0); (0, -1); (0, 1)].

(** Enough for every ray of the board: at most [max N_FILAS N_COLS] cells
    are visited before the loop condition fails. *)
Definition fuel_rayo : nat := S (Z.to_nat (Z.max N_FILAS N_COLS)).

(** An upper bound of the number of cells a ray still visits from
    [(nueva_i, nueva_j)] before it leaves the board. *)
Definition salida (di dj nueva_i nueva_j : Z) : Z :=
  if decide (di = -1) then nueva_i + 1
  else if decide (di = 1) then N_FILAS - nueva_i
  else if decide (dj = -1) then nueva_j + 1
  else N_COLS - nueva_j.

(** [JuegoMiniChess.__movimientos_torre] *)
Definition __movimientos_torre (t : tablero) (origen : pos) (jugador : Z)
  : option (list mov) :=
  let '(i, j) := origen in
  rayos ← mapM (λ '(di, dj), rayo fuel_rayo t origen jugador di dj (i + di) (j + dj))
               direcciones_torre;
  Some (concat rayos).

Definition direcciones_rey : list (Z * Z) :=
  [(-1, -1); (-1, 0); (-1, 1);
   (0, -1);           (0, 1);
   (1, -1);  (1, 0);  (1, 1)].

(** [JuegoMiniChess.__movimientos_rey] *)
Definition __movimientos_rey (t : tablero) (origen : pos) (jugador : Z)
  : option (list mov) :=
  let '(i, j) := origen in
  pasos ← mapM (λ '(di, dj),
                  let nueva_i := i + di in
                  let nueva_j := j + dj in
                  if en_rango N_FILAS nueva_i && en_rango N_COLS nueva_j then
                    casilla ← leer t (nueva_i, nueva_j);
                    Some (if decide (casilla = 0 ∨ casilla * jugador < 0)
                          then [(origen, (nueva_i, nueva_j))] else [])
                  else Some [])
               direcciones_rey;
  Some (concat pasos).

(** The cells in the order of the nested [for i ... for j ...] loops. *)
Definition casillas : list pos :=
  i ← rango N_FILAS; j ← rango N_COLS; [(i, j)].

(** Body of the loops of [__calcular_movimientos_validos]. *)
Definition movimientos_de_casilla (t : tablero) (jugador : Z) (origen : pos)
  : option (list mov) :=
  pieza ← leer t origen;
  if decide ((jugador = 1 ∧ pieza > 0) ∨ (jugador = -1 ∧ pieza < 0)) then
    let tipo_pieza := Z.abs pieza in
    if decide (tipo_pieza = PEON) then __movimientos_peon t origen jugador
    else if decide (tipo_pieza = TORRE) then __movimientos_torre t origen jugador
    else if decide (tipo_pieza = REY) then __movimientos_rey t origen jugador
    else Some []
  else Some [].

(** [JuegoMiniChess.__calcular_movimientos_validos] *)
Definition __calcular_movimientos_validos (t : tablero) (jugador : Z)
  : option (list mov) :=
  por_casilla ← mapM (movimientos_de_casilla t jugador) casillas;
  Some (concat por_casilla).

(** ** Game session *)

(** The fields of [JuegoMiniChess] that the engine reads and writes (the
    two players are handled by the training driver). *)
Record JuegoMiniChess := {
  _n_filas : Z;
  _n_cols : Z;
  _tablero : tablero;
  _fin : bool;
  _estado : option string;
  _siguiente_jugador : Z;
  _turnos_sin_captura : Z;
}.

(** [JuegoMiniChess.__init__] *)
Definition JuegoMiniChess_init : JuegoMiniChess :=
  {| _n_filas := N_FILAS;
     _n_cols := N_COLS;
     _tablero := inicializar_tablero;
     _fin := false;
     _estado := None;
     _siguiente_jugador := 1;
     _turnos_sin_captura := 0 |}.

(** [self._fin = b] *)
Definition con_fin (b : bool) (s : JuegoMiniChess) : JuegoMiniChess :=
  {| _n_filas := _n_filas s;
     _n_cols := _n_cols s;
     _tablero := _tablero s;
     _fin := b;
     _estado := _estado s;
     _siguiente_jugador := _siguiente_jugador s;
     _turnos_sin_captura := _turnos_sin_captura s |}.

(** One turn of the king scan of [__calcula_ganador]. *)
Definition marca_rey (reyes : bool * bool) (c : Z) : bool * bool :=
  if decide (c = REY) then (true, reyes.2)
  else if decide (c = - REY) then (reyes.1, true)
  else reyes.

(** The king scan: [(rey_j1_existe, rey_j2_existe)] after the two loops. *)
Definition busca_reyes (t : tablero) : option (bool * bool) :=
  celdas ← mapM (leer t) casillas;
  Some (foldl marca_rey (false, false) celdas).

(** [JuegoMiniChess.__calcula_ganador]: the returned value ([None] when the
    game goes on) and the session with its [_fin] flag set. *)
Definition __calcula_ganador (s : JuegoMiniChess)
  : option (option Z * JuegoMiniChess) :=
  reyes ← busca_reyes (_tablero s);
  let '(rey_j1_existe, rey_j2_existe) := reyes in
  if negb rey_j1_existe then Some (Some (-1), con_fin true s)
  else if negb rey_j2_existe then Some (Some 1, con_fin true s)
  else
    movimientos_j1 ← __calcular_movimientos_validos (_tablero s) 1;
    movimientos_j2 ← __calcular_movimientos_validos (_tablero s) (-1);
    if decide (length movimientos_j1 = 0%nat) then Some (Some (-1), con_fin true s)
    else if decide (length movimientos_j2 = 0%nat) then Some (Some 1, con_fin true s)
    else if decide (_turnos_sin_captura s >= 50) then Some (Some 0, con_fin true s)
    else Some (None, con_fin false s).

(** [JuegoMiniChess.__actualiza_estado] *)
Definition __actualiza_estado (s : JuegoMiniChess) (movimiento : mov)
  : option JuegoMiniChess :=
  let '(origen, destino) := movimiento in
  pieza ← leer (_tablero s) origen;
  pieza_capturada ← leer (_tablero s) destino;
  t1 ← escribir (_tablero s) destino pieza;
  t2 ← escribir t1 origen 0;
  let turnos :=
    if decide (pieza_capturada ≠ 0) then 0 else _turnos_sin_captura s + 1 in
  let siguiente := if decide (_siguiente_jugador s = 1) then -1 else 1 in
  estado ← _serializa_estado t2 (_n_filas s) (_n_cols s);
  Some {| _n_filas := _n_filas s;
          _n_cols := _n_cols s;
          _tablero := t2;
          _fin := _fin s;
          _estado := Some estado;
          _siguiente_jugador := siguiente;
          _turnos_sin_captura := turnos |}.

(** [JuegoMiniChess.__reset] *)
Definition __reset (s : JuegoMiniChess) : JuegoMiniChess :=
  {| _n_filas := _n_filas s;
     _n_cols := _n_cols s;
     _tablero := inicializar_tablero;
     _fin := false;
     _estado := None;
     _siguiente_jugador := 1;
     _turnos_sin_captura := 0 |}.

(** ** Learning agent *)

(** A running maximum: [-np.inf] or a number. *)
Inductive valor : Type :=
  | MenosInf
  | Num (q : Q).

(** [v > valor_max] *)
Definition mayor (v : Q) (valor_max : valor) : bool :=
  match valor_max with
  | MenosInf => true
  | Num m => negb (Qle_bool v m)
  end.

(** [v == valor_max] *)
Definition igual (v : Q) (valor_max : valor) : bool :=
  match valor_max with
  | MenosInf => false
  | Num m => Qeq_bool v m
  end.

Record JugadorMiniChessMaq := {
  name : string;
  _estados_juego_actual : list string;
  _tasa_exploracion : Q;
  _tasa_aprendizaje : Q;
  _descuento_gamma : Q;
  _experiencia_estado_valor : gmap string Q;
}.

(** [JugadorMiniChessMaq.__init__] *)
Definition JugadorMiniChessMaq_init (nombre : string)
    (tasa_exploracion tasa_aprendizaje descuento_gamma : Q) : JugadorMiniChessMaq :=
  {| name := nombre;
     _estados_juego_actual := [];
     _tasa_exploracion := tasa_exploracion;
     _tasa_aprendizaje := tasa_aprendizaje;
     _descuento_gamma := descuento_gamma;
     _experiencia_estado_valor := ∅ |}.

(** The constructor called with its default arguments. *)
Definition JugadorMiniChessMaq_por_defecto (nombre : string) : JugadorMiniChessMaq :=
  JugadorMiniChessMaq_init nombre (3 # 10) (2 # 10) (9 # 10).

Definition con_estados (l : list string) (self : JugadorMiniChessMaq)
  : JugadorMiniChessMaq :=
  {| name := name self;
     _estados_juego_actual := l;
     _tasa_exploracion := _tasa_exploracion self;
     _tasa_aprendizaje := _tasa_aprendizaje self;
     _descuento_gamma := _descuento_gamma self;
     _experiencia_estado_valor := _experiencia_estado_valor self |}.

Definition con_experiencia (e : gmap string Q) (self : JugadorMiniChessMaq)
  : JugadorMiniChessMaq :=
  {| name := name self;
     _estados_juego_actual := _estados_juego_actual self;
     _tasa_exploracion := _tasa_exploracion self;
     _tasa_aprendizaje := _tasa_aprendizaje self;
     _descuento_gamma := _descuento_gamma self;
     _experiencia_estado_valor := e |}.

(** [JugadorMiniChess.reset] *)
Definition reset (self : JugadorMiniChessMaq) : JugadorMiniChessMaq :=
  con_estados [] self.

(** [JugadorMiniChessMaq.guarda_estado] *)
Definition guarda_estado (self : JugadorMiniChessMaq) (s : string)
  : JugadorMiniChessMaq :=
  con_estados (_estados_juego_actual self ++ [s]) self.

(** *** Arrays by reference *)

(** The store of numpy arrays; a board handed to a method is a reference
    into it. *)
Abbreviation ref := positive.
Abbreviation almacen := (gmap positive (list (list Z))).

(** [a.copy()] *)
Definition copia (h : almacen) (a : ref) : option (ref * almacen) :=
  t ← h !! a;
  let nuevo := fresh (dom h) in
  Some (nuevo, <[nuevo := t]> h).

(** [a[p]] *)
Definition lee (h : almacen) (a : ref) (p : pos) : option Z :=
  t ← h !! a; leer t p.

(** [a[p] = v] *)
Definition escribe (h : almacen) (a : ref) (p : pos) (v : Z) : option almacen :=
  t ← h !! a;
  t' ← escribir t p v;
  Some (<[a := t']> h).

(** [JuegoMiniChess._serializa_estado(a, n_filas, n_cols)] *)
Definition serializa_ref (h : almacen) (a : ref) (n_filas n_cols : Z)
  : option string :=
  t ← h !! a; _serializa_estado t n_filas n_cols.

(** *** Action selection *)

(** [np.random.choice(n)] with the raw draw [r]: an index below [n], and a
    ValueError when [n] is 0. *)
Definition random_choice (r n : nat) : option nat :=
  if decide (n = 0%nat) then None else Some (r mod n)%nat.

(** The simulation of one move in the loop of [decide_accion]: the value
    of the successor board, and the store afterwards. *)
Definition evalua_movimiento (experiencia : gmap string Q)
    (h : almacen) (tab : ref) (movimiento : mov) : option (Q * almacen) :=
  let '(origen, destino) := movimiento in
  '(siguiente_tablero, h1) ← copia h tab;
  pieza ← lee h1 siguiente_tablero origen;
  h2 ← escribe h1 siguiente_tablero destino pieza;
  h3 ← escribe h2 siguiente_tablero origen 0;
  siguiente_tablero_hash ← serializa_ref h3 siguiente_tablero N_FILAS N_COLS;
  Some (default 0%Q (experiencia !! siguiente_tablero_hash), h3).

(** The [for movimiento in movimientos_validos] loop of [decide_accion],
    from the state [(valor_max, mejores_movimientos)]. *)
Fixpoint explota (experiencia : gmap string Q) (tab : ref)
    (movimientos : list mov) (valor_max : valor) (mejores_movimientos : list mov)
    (h : almacen) : option (valor * list mov * almacen) :=
  match movimientos with
  | [] => Some (valor_max, mejores_movimientos, h)
  | movimiento :: resto =>
      '(v, h') ← evalua_movimiento experiencia h tab movimiento;
      if mayor v valor_max then
        explota experiencia tab resto (Num v) [movimiento] h'
      else if igual v valor_max then
        explota experiencia tab resto valor_max (mejores_movimientos ++ [movimiento]) h'
      else
        explota experiencia tab resto valor_max mejores_movimientos h'
  end.

(** [JugadorMiniChessMaq.decide_accion]. [u] is the draw of
    [np.random.uniform(0, 1)], a number of [0, 1), and [r] the raw draw
    behind the one call of [np.random.choice] that follows. *)
Definition decide_accion (self : JugadorMiniChessMaq) (u : Q) (r : nat)
    (movimientos_validos : list mov) (tab : ref) (token : Z) (h : almacen)
  : option (mov * almacen) :=
  if Qle_bool u (_tasa_exploracion self) then
    k ← random_choice r (length movimientos_validos);
    movimiento ← movimientos_validos !! k;
    Some (movimiento, h)
  else
    '(_, mejores_movimientos, h') ←
      explota (_experiencia_estado_valor self) tab movimientos_validos MenosInf [] h;
    k ← random_choice r (length mejores_movimientos);
    movimiento ← mejores_movimientos !! k;
    Some (movimiento, h').

(** *** Reward propagation *)

(** The loop of [retropropaga_recompensa] over the indices [indices] of
    the trace, from the table [tabla] and the running [recompensa_actual]. *)
Fixpoint retro_bucle (alpha gamma : Q) (estados : list string)
    (indices : list nat) (tabla : gmap string Q) (recompensa_actual : Q)
  : option (gmap string Q) :=
  match indices with
  | [] => Some tabla
  | i :: resto =>
      s ← estados !! i;
      let valor_s := default 0%Q (tabla !! s) in
      let nuevo_valor := (valor_s + alpha * (recompensa_actual - valor_s))%Q in
      retro_bucle alpha gamma estados resto
        (<[s := nuevo_valor]> tabla) (nuevo_valor * gamma)%Q
  end.

(** [JugadorMiniChessMaq.retropropaga_recompensa]; the indices are
    [reversed(range(len(self._estados_juego_actual)))]. *)
Definition retropropaga_recompensa (self : JugadorMiniChessMaq)
    (recompensa_final : Q) : option JugadorMiniChessMaq :=
  let estados := _estados_juego_actual self in
  tabla ← retro_bucle (_tasa_aprendizaje self) (_descuento_gamma self) estados
            (reverse (seq 0 (length estados)))
            (_experiencia_estado_valor self) recompensa_final;
  Some (con_experiencia tabla self).

(** The propagation as the specification words it: over the states from
    the most recent to the earliest, with a running target. *)
Fixpoint propaga_spec (alpha gamma : Q) (recientes : list string)
    (tabla : gmap string Q) (objetivo : Q) : gmap string Q :=
  match recientes with
  | [] => tabla
  | s :: anteriores =>
      let actual := default 0%Q (tabla !! s) in
      let nuevo := (actual + alpha * (objetivo - actual))%Q in
      propaga_spec alpha gamma anteriores (<[s := nuevo]> tabla) (nuevo * gamma)%Q
  end.

(** ** Notions used to state the properties *)

(** The king of side [jugador] stands on the board. *)
Definition hay_rey (t : tablero) (jugador : Z) : Prop :=
  ∃ p, en_tablero p ∧ celda t p = jugador * REY.

(** [self._siguiente_jugador = j] *)
Definition con_siguiente (j : Z) (s : JuegoMiniChess) : JuegoMiniChess :=
  {| _n_filas := _n_filas s;
     _n_cols := _n_cols s;
     _tablero := _tablero s;
     _fin := _fin s;
     _estado := _estado s;
     _siguiente_jugador := j;
     _turnos_sin_captura := _turnos_sin_captura s |}.

(** [self._tablero = t] *)
Definition con_tablero (t : tablero) (s : JuegoMiniChess) : JuegoMiniChess :=
  {| _n_filas := _n_filas s;
     _n_cols := _n_cols s;
     _tablero := t;
     _fin := _fin s;
     _estado := _estado s;
     _siguiente_jugador := _siguiente_jugador s;
     _turnos_sin_captura := _turnos_sin_captura s |}.

(** [self._turnos_sin_captura = n] *)
Definition con_turnos (n : Z) (s : JuegoMiniChess) : JuegoMiniChess :=
  {| _n_filas := _n_filas s;
     _n_cols := _n_cols s;
     _tablero := _tablero s;
     _fin := _fin s;
     _estado := _estado s;
     _siguiente_jugador := _siguiente_jugador s;
     _turnos_sin_captura := n |}.

(** A board with both kings on which neither side can move: every pawn
    is blocked and each king is walled in by its own pawns. *)
Definition tablero_bloqueado : tablero :=
  [ [0; 0; - PEON; - REY];
    [0; 0; - PEON; - PEON];
    [PEON; PEON; 0; 0];
    [REY; PEON; 0; 0] ].

(** A board with both kings on which only side 1 cannot move. *)
Definition tablero_j1_bloqueado : tablero :=
  [ [0; 0; 0; - REY];
    [0; 0; 0; 0];
    [PEON; PEON; 0; 0];
    [REY; PEON; 0; 0] ].

(** A board without kings. *)
Definition tablero_sin_reyes : tablero :=
  [ [TORRE; 0; 0; 0];
    [PEON; 0; 0; 0];
    [0; 0; 0; - PEON];
    [0; 0; 0; - TORRE] ].

(** A board with the king of side 1 only. *)
Definition tablero_sin_rey_j2 : tablero :=
  [ [TORRE; REY; 0; 0];
    [PEON; 0; 0; 0];
    [0; 0; 0; - PEON];
    [0; 0; 0; - TORRE] ].

(** The successor board of [decide_accion], on board values. *)
Definition simula (t : tablero) (movimiento : mov) : option tablero :=
  pieza ← leer t movimiento.1;
  t1 ← escribir t movimiento.2 pieza;
  escribir t1 movimiento.1 0.

(** The value [decide_accion] gives to a move: the table entry of the
    serialized successor board, 0 when there is none. *)
Definition valor_sucesor (experiencia : gmap string Q) (t : tablero)
    (movimiento : mov) : option Q :=
  t' ← simula t movimiento;
  siguiente_tablero_hash ← _serializa_estado t' N_FILAS N_COLS;
  Some (default 0%Q (experiencia !! siguiente_tablero_hash)).

(** Both cells of a move are on the board. *)
Definition mov_en_tablero (m : mov) : Prop := en_tablero m.1 ∧ en_tablero m.2.

(** The value of a move as a number (0 where the simulation fails). *)
Definition val_mov (experiencia : gmap string Q) (t : tablero) (m : mov) : Q :=
  default 0%Q (valor_sucesor experiencia t m).

(** What the loop of [decide_accion] holds after the moves [vistos]:
    nothing before the first move; afterwards the greatest value seen and
    the moves seen that reach it, in the order of the list. *)
Definition seleccion (experiencia : gmap string Q) (t : tablero)
    (vistos : list mov) (valor_max : valor) (mejores : list mov) : Prop :=
  match valor_max with
  | MenosInf => vistos = [] ∧ mejores = []
  | Num q =>
      Forall (λ m, (val_mov experiencia t m <= q)%Q) vistos
      ∧ Exists (λ m, (val_mov experiencia t m == q)%Q) vistos
      ∧ mejores = List.filter (λ m, Qeq_bool (val_mov experiencia t m) q) vistos
  end.

(** An agent that never explores ([tasa_exploracion] 0.0) and has learnt
    the value 1 for the board reached by the king step (0,1) -> (0,2) from
    the initial layout. *)
Definition jugador_codicioso : JugadorMiniChessMaq :=
  con_experiencia
    {[ "[ 5.  0.  6.  0.  1.  0.  0.  0.  0.  0.  0. -1.  0.  0. -6. -5.]" := 1%Q ]}
    (JugadorMiniChessMaq_init "maq" 0 (2 # 10) (9 # 10)).

(** The store holding the initial board only. *)
Definition almacen_inicial : almacen := {[ 1%positive := inicializar_tablero ]}.

(** The legal moves of side 1 on the initial board. *)
Definition movimientos_iniciales : list mov :=
  [ ((0, 1), (0, 2)); ((0, 1), (1, 1)); ((0, 1), (1, 2)); ((1, 0), (2, 0)) ].

(** The number of occupied cells of a board. *)
Definition piezas (t : tablero) : nat :=
  sum_list_with (λ p, if decide (celda t p = 0) then 0%nat else 1%nat) casillas.

(** ** Training driver *)

(** [JugadorMiniChessHum.decide_accion]. [tecleado] is what the person
    types, one entry per turn of the [while True] loop, as
    [int(input(...).strip())] reads it: a number, or [None] when the
    conversion raises. The loop goes on until an index of the list is
    typed; when the entries run out it is still waiting, which is [None]
    here. The printed lines are left out. *)
Fixpoint decide_accion_hum (tecleado : list (option Z))
    (movimientos_validos : list mov) : option mov :=
  match tecleado with
  | [] => None
  | Some idx :: resto =>
      if decide (0 ≤ idx < Z.of_nat (length movimientos_validos))
      then movimientos_validos !! Z.to_nat idx
      else decide_accion_hum resto movimientos_validos
  | None :: resto => decide_accion_hum resto movimientos_validos
  end.

(** The second player: a learning agent or a person ([JugadorMiniChessHum]
    has a name and the trace of the base class, which stays empty). *)
Inductive Jugador2 : Type :=
  | Maq (j : JugadorMiniChessMaq)
  | Hum (nombre : string).

(** The session together with its two players ([self._jugador1],
    [self._jugador2]). *)
Record Partida := {
  juego : JuegoMiniChess;
  _jugador1 : JugadorMiniChessMaq;
  _jugador2 : Jugador2;
}.

(** What one turn takes from outside: the two draws of a learning agent
    and what a person types. *)
Record sorteo := {
  uniforme : Q;
  eleccion : nat;
  tecleado : list (option Z);
}.

(** A call of [decide_accion] on the live board: the board is an array of
    the store, the call gets a reference to it, and the arrays the call
    allocates are dropped when it returns. *)
Definition decide_en_vivo (self : JugadorMiniChessMaq) (z : sorteo)
    (movimientos_validos : list mov) (t : tablero) (token : Z) : option mov :=
  fst <$> decide_accion self (uniforme z) (eleccion z) movimientos_validos
            1%positive token {[ 1%positive := t ]}.

(** [jugador.reset()] for the second player. *)
Definition reset2 (j : Jugador2) : Jugador2 :=
  match j with
  | Maq j => Maq (reset j)
  | Hum nombre => Hum nombre
  end.

(** One turn of the [while] loop of [jugar]: the state after it and
    whether the loop was left by [break]. *)
Definition turno (z : sorteo) (p : Partida) : option (Partida * bool) :=
  let s := juego p in
  movimientos_validos ←
    __calcular_movimientos_validos (_tablero s) (_siguiente_jugador s);
  if decide (length movimientos_validos = 0%nat) then Some (p, true)
  else if decide (_siguiente_jugador s = 1) then
    accion_j1 ← decide_en_vivo (_jugador1 p) z movimientos_validos
                   (_tablero s) (_siguiente_jugador s);
    s1 ← __actualiza_estado s accion_j1;
    estado ← _estado s1;
    let j1 := guarda_estado (_jugador1 p) estado in
    '(resultado, s2) ← __calcula_ganador s1;
    Some ({| juego := s2; _jugador1 := j1; _jugador2 := _jugador2 p |},
          bool_decide (resultado ≠ None))
  else
    accion_j2 ←
      match _jugador2 p with
      | Maq j => decide_en_vivo j z movimientos_validos
                   (_tablero s) (_siguiente_jugador s)
      | Hum _ => decide_accion_hum (tecleado z) movimientos_validos
      end;
    s1 ← __actualiza_estado s accion_j2;
    estado ← _estado s1;
    let j2 := match _jugador2 p with
              | Maq j => Maq (guarda_estado j estado)
              | Hum nombre => Hum nombre
              end in
    '(resultado, s2) ← __calcula_ganador s1;
    Some ({| juego := s2; _jugador1 := _jugador1 p; _jugador2 := j2 |},
          bool_decide (resultado ≠ None)).

(** The [while not self._fin] loop of [jugar]; turn [n] takes [azar n]
    from outside. Each turn spends one unit of [fuel]. *)
Fixpoint bucle_jugar (fuel : nat) (azar : nat → sorteo) (n : nat) (p : Partida)
  : option Partida :=
  match fuel with
  | O => None
  | S fuel' =>
      if _fin (juego p) then Some p
      else
        '(p', sale) ← turno (azar n) p;
        if (sale : bool) then Some p' else bucle_jugar fuel' azar (S n) p'
  end.

(** [JuegoMiniChess.__recompensa] *)
Definition __recompensa (p : Partida) : option Partida :=
  '(resultado, s) ← __calcula_ganador (juego p);
  let '(r1, r2) :=
    if decide (resultado = Some 1) then (1%Q, 0%Q)
    else if decide (resultado = Some (-1)) then (0%Q, 1%Q)
    else ((1 # 2)%Q, (1 # 2)%Q) in
  j1 ← retropropaga_recompensa (_jugador1 p) r1;
  j2 ← match _jugador2 p with
       | Maq j => Maq <$> retropropaga_recompensa j r2
       | Hum nombre => Some (Hum nombre)
       end;
  Some {| juego := s; _jugador1 := j1; _jugador2 := j2 |}.

(** [JuegoMiniChess.jugar], the printed lines left out: the loop, the
    evaluation made for the final message, the rewards, and the three
    resets. *)
Definition jugar (fuel : nat) (azar : nat → sorteo) (p : Partida)
  : option Partida :=
  p1 ← bucle_jugar fuel azar 0 p;
  '(_, s1) ← __calcula_ganador (juego p1);
  p2 ← __recompensa {| juego := s1; _jugador1 := _jugador1 p1;
                       _jugador2 := _jugador2 p1 |};
  Some {| juego := __reset (juego p2);
          _jugador1 := reset (_jugador1 p2);
          _jugador2 := reset2 (_jugador2 p2) |}.

(** [JuegoMiniChess.fit]: [rondas] games in a row; game [i] takes
    [azar i] from outside. *)
Fixpoint fit (fuel : nat) (azar : nat → nat → sorteo) (i rondas : nat)
    (p : Partida) : option Partida :=
  match rondas with
  | O => Some p
  | S rondas' =>
      p' ← jugar fuel (azar i) p;
      fit fuel azar (S i) rondas' p'
  end.

(** Turns enough for any game from a board: every turn that does not end
    the game either takes a piece or brings the no-capture counter closer
    to 50. *)
Definition turnos_max (s : JuegoMiniChess) : nat :=
  (51 * piezas (_tablero s) + Z.to_nat (50 - _turnos_sin_captura s))%nat.

(** A session as the constructor and [__reset] leave it, up to the board
    position: 4x4 dimensions and a well-shaped board. *)
Definition sesion_bien_formada (s : JuegoMiniChess) : Prop :=
  forma (_tablero s) ∧ _n_filas s = N_FILAS ∧ _n_cols s = N_COLS.

(** The state at the head of turn [n + k] of the loop of [jugar], when the
    loop gets there: [k] turns from turn [n] on, none of which leaves the
    loop. *)
Fixpoint tras_turnos (azar : nat → sorteo) (n k : nat) (p : Partida)
  : option Partida :=
  match k with
  | O => Some p
  | S k' =>
      if _fin (juego p) then None
      else
        '(p', sale) ← turno (azar n) p;
        if (sale : bool) then None else tras_turnos azar (S n) k' p'
  end.

(** The person is left waiting at the head of a turn: the game is not
    over, it is the turn of the second player, who is a person, the list
    of legal moves shown is not empty, and nothing of what is typed is an
    index of that list. *)
Definition espera (z : sorteo) (p : Partida) : Prop :=
  _fin (juego p) = false
  ∧ _siguiente_jugador (juego p) ≠ 1
  ∧ ∃ nombre movs,
      _jugador2 p = Hum nombre
      ∧ __calcular_movimientos_validos (_tablero (juego p))
          (_siguiente_jugador (juego p)) = Some movs
      ∧ movs ≠ []
      ∧ Forall (λ e, ∀ i, e = Some i → ¬ (0 ≤ i < Z.of_nat (length movs)))
          (tecleado z).

(** The rates of an agent and the values of its table are between 0 and 1. *)
Definition acotado (j : JugadorMiniChessMaq) : Prop :=
  (0 <= _tasa_aprendizaje j <= 1)%Q
  ∧ (0 <= _descuento_gamma j <= 1)%Q
  ∧ map_Forall (λ _ v, (0 <= v <= 1)%Q) (_experiencia_estado_valor j).

Definition acotado2 (j : Jugador2) : Prop :=
  match j with
  | Maq j => acotado j
  | Hum _ => True
  end.

(** Two agents that differ by their traces at most. *)
Definition mismo_saber (j j' : JugadorMiniChessMaq) : Prop :=
  name j' = name j
  ∧ _tasa_exploracion j' = _tasa_exploracion j
  ∧ _tasa_aprendizaje j' = _tasa_aprendizaje j
  ∧ _descuento_gamma j' = _descuento_gamma j
  ∧ _experiencia_estado_valor j' = _experiencia_estado_valor j.

Definition mismo_saber2 (j j' : Jugador2) : Prop :=
  match j, j' with
  | Maq j, Maq j' => mismo_saber j j'
  | Hum n, Hum n' => n' = n
  | _, _ => False
  end.

(** A fresh session with two agents built with the default rates. *)
Definition partida_inicial : Partida :=
  {| juego := JuegoMiniChess_init;
     _jugador1 := JugadorMiniChessMaq_por_defecto "uno";
     _jugador2 := Maq (JugadorMiniChessMaq_por_defecto "dos") |}.

(** The same draws on every turn. *)
Definition azar_fijo : nat → sorteo :=
  λ _, {| uniforme := 1 # 2; eleccion := 0; tecleado := [] |}.

(** * Properties *)

(** ** Reading and writing well-shaped boards *)

Section tablero_lemas.
Implicit Types (t : tablero) (p q : pos) (v : Z).

Lemma indice_en_rango n i :
  0 ≤ i < Z.of_nat n → indice n i = Some (Z.to_nat i).
Proof. intros H. unfold indice. by rewrite decide_True. Qed.

Lemma forma_fila t i :
  forma t → (i < 4)%nat →
  ∃ fila, t !! i = Some fila ∧ length fila = 4%nat.
Proof.
  intros [Hl Hf] Hi.
  destruct (lookup_lt_is_Some_2 t i) as [fila Hfila].
  { rewrite Hl. change (Z.to_nat N_FILAS) with 4%nat. lia. }
  exists fila. split; [done|].
  by apply (Forall_lookup_1 _ _ _ _ Hf Hfila).
Qed.

Lemma leer_forma t p :
  forma t → en_tablero p →
  ∃ fila c, t !! Z.to_nat p.1 = Some fila ∧ length fila = 4%nat
            ∧ fila !! Z.to_nat p.2 = Some c ∧ leer t p = Some c.
Proof.
  intros Hf [Hi Hj]. unfold N_FILAS, N_COLS in *.
  destruct (forma_fila t (Z.to_nat p.1) Hf) as (fila & Hfila & Hlen); [lia|].
  destruct (lookup_lt_is_Some_2 fila (Z.to_nat p.2)) as [c Hc]; [lia|].
  exists fila, c. repeat split; try done.
  unfold leer. destruct Hf as [Hl _]. rewrite Hl.
  change (Z.to_nat N_FILAS) with 4%nat.
  rewrite indice_en_rango by lia. simpl.
  rewrite Hfila. simpl. rewrite Hlen, indice_en_rango by lia. done.
Qed.

Lemma leer_celda t p :
  forma t → en_tablero p → leer t p = Some (celda t p).
Proof.
  intros Hf Hp. destruct (leer_forma t p Hf Hp) as (? & c & _ & _ & _ & H).
  unfold celda. by rewrite H.
Qed.

Lemma escribir_forma_eq t p v :
  forma t → en_tablero p →
  ∃ fila, t !! Z.to_nat p.1 = Some fila ∧ length fila = 4%nat
          ∧ escribir t p v
            = Some (<[Z.to_nat p.1 := <[Z.to_nat p.2 := v]> fila]> t).
Proof.
  intros Hf Hp.
  destruct (leer_forma t p Hf Hp) as (fila & c & Hfila & Hlen & _ & _).
  exists fila. repeat split; try done.
  destruct Hp as [Hi Hj]. unfold N_FILAS, N_COLS in *.
  unfold escribir. destruct Hf as [Hl _]. rewrite Hl.
  change (Z.to_nat N_FILAS) with 4%nat.
  rewrite indice_en_rango by lia. simpl.
  rewrite Hfila. simpl. rewrite Hlen, indice_en_rango by lia. done.
Qed.

Lemma escribir_forma t p v t' :
  forma t → en_tablero p → escribir t p v = Some t' → forma t'.
Proof.
  intros Hf Hp He.
  destruct (escribir_forma_eq t p v Hf Hp) as (fila & Hfila & Hlen & Heq).
  rewrite Heq in He. injection He as <-.
  destruct Hf as [Hl HF]. split.
  - by rewrite length_insert.
  - apply Forall_insert; [done|]. by rewrite length_insert.
Qed.

Lemma escribir_is_Some t p v :
  forma t → en_tablero p → is_Some (escribir t p v).
Proof.
  intros Hf Hp.
  destruct (escribir_forma_eq t p v Hf Hp) as (fila & _ & _ & Heq).
  rewrite Heq. eauto.
Qed.

Lemma celda_escribir t p q v t' :
  forma t → en_tablero p → en_tablero q → escribir t p v = Some t' →
  celda t' q = if decide (q = p) then v else celda t q.
Proof.
  intros Hf Hp Hq He.
  pose proof (escribir_forma _ _ _ _ Hf Hp He) as Hf'.
  destruct (escribir_forma_eq t p v Hf Hp) as (fila & Hfila & Hlen & Heq).
  rewrite Heq in He. injection He as <-.
  destruct (leer_forma _ q Hf' Hq) as (fq' & c' & Hfq' & _ & Hc' & Hl').
  destruct (leer_forma _ q Hf Hq) as (fq & c & Hfq & _ & Hc & Hl).
  unfold celda. rewrite Hl', Hl. simpl.
  destruct p as [pi pj], q as [qi qj]. simpl in *.
  destruct Hp as [Hpi Hpj], Hq as [Hqi Hqj]. simpl in *.
  unfold N_FILAS, N_COLS in *.
  destruct (decide (Z.to_nat qi = Z.to_nat pi)) as [Ei|Ei].
  - rewrite Ei in *. rewrite list_lookup_insert_eq in Hfq'
      by (destruct Hf as [-> _]; change (Z.to_nat N_FILAS) with 4%nat; lia).
    injection Hfq' as <-. rewrite Hfila in Hfq. injection Hfq as <-.
    destruct (decide (Z.to_nat qj = Z.to_nat pj)) as [Ej|Ej].
    + rewrite Ej in *. rewrite list_lookup_insert_eq in Hc' by lia.
      injection Hc' as <-. rewrite decide_True; [done|].
      f_equal; lia.
    + rewrite list_lookup_insert_ne in Hc' by done.
      rewrite decide_False by (intros [= ? ?]; lia). congruence.
  - rewrite list_lookup_insert_ne in Hfq' by done.
    rewrite decide_False by (intros [= ? ?]; lia). congruence.
Qed.

End tablero_lemas.

(** ** Loops over the cells *)

Lemma mapM_total {A B} (f : A → option B) (g : A → B) (l : list A) :
  Forall (λ x, f x = Some (g x)) l → mapM f l = Some (g <$> l).
Proof.
  induction 1 as [|x l Hx _ IH]; [done|].
  cbn. rewrite Hx. cbn. by rewrite IH.
Qed.

Lemma en_tablero_casillas (p : pos) : en_tablero p ↔ p ∈ casillas.
Proof.
  destruct p as [i j]. unfold en_tablero, N_FILAS, N_COLS. simpl. split.
  - intros [Hi Hj].
    assert (i = 0 ∨ i = 1 ∨ i = 2 ∨ i = 3) as Ei by lia.
    assert (j = 0 ∨ j = 1 ∨ j = 2 ∨ j = 3) as Ej by lia.
    destruct Ei as [-> | [-> | [-> | ->]]], Ej as [-> | [-> | [-> | ->]]];
      vm_compute; repeat first [apply list_elem_of_here | apply list_elem_of_further].
  - intros H. vm_compute in H.
    repeat (apply elem_of_cons in H as [E|H]; [injection E as -> ->; lia|]).
    by apply elem_of_nil in H.
Qed.

Lemma leer_casillas (t : tablero) :
  forma t → mapM (leer t) casillas = Some (celda t <$> casillas).
Proof.
  intros Hf. apply mapM_total, Forall_forall. intros p Hp.
  by apply leer_celda, en_tablero_casillas.
Qed.

Lemma forma_concat (t : tablero) : forma t → length (concat t) = 16%nat.
Proof.
  intros [Hl HF]. change (Z.to_nat N_FILAS) with 4%nat in Hl.
  change (Z.to_nat N_COLS) with 4%nat in HF.
  destruct t as [|f0 [|f1 [|f2 [|f3 [|]]]]]; try discriminate.
  repeat (apply Forall_cons in HF as [? HF]).
  simpl. rewrite !length_app. simpl. lia.
Qed.

Lemma serializa_forma (t : tablero) :
  forma t → _serializa_estado t N_FILAS N_COLS = Some (str_ndarray (concat t)).
Proof.
  intros Hf. unfold _serializa_estado, reshape.
  rewrite decide_False by done.
  rewrite decide_True; [done|]. rewrite (forma_concat t Hf). done.
Qed.

(** ** Applying a move *)

(** The effect of [__actualiza_estado] on a move between two distinct
    cells of the board, whether the move is legal or not. *)
Lemma actualiza_estado_movimiento (s : JuegoMiniChess) (origen destino : pos) :
  forma (_tablero s) → _n_filas s = N_FILAS → _n_cols s = N_COLS →
  en_tablero origen → en_tablero destino → origen ≠ destino →
  ∃ s', __actualiza_estado s (origen, destino) = Some s'
    ∧ forma (_tablero s')
    ∧ celda (_tablero s') destino = celda (_tablero s) origen
    ∧ celda (_tablero s') origen = 0
    ∧ (∀ p, en_tablero p → p ≠ origen → p ≠ destino →
            celda (_tablero s') p = celda (_tablero s) p)
    ∧ _turnos_sin_captura s'
      = (if decide (celda (_tablero s) destino = 0)
         then _turnos_sin_captura s + 1 else 0)
    ∧ _siguiente_jugador s' = (if decide (_siguiente_jugador s = 1) then -1 else 1)
    ∧ (_siguiente_jugador s = 1 ∨ _siguiente_jugador s = -1 →
       _siguiente_jugador s' = - _siguiente_jugador s)
    ∧ _estado s' = _serializa_estado (_tablero s') N_FILAS N_COLS
    ∧ is_Some (_estado s').
Proof.
  intros Hf Hnf Hnc Ho Hd Hne.
  destruct (escribir_is_Some (_tablero s) destino (celda (_tablero s) origen) Hf Hd)
    as [t1 Ht1].
  pose proof (escribir_forma _ _ _ _ Hf Hd Ht1) as Hf1.
  destruct (escribir_is_Some t1 origen 0 Hf1 Ho) as [t2 Ht2].
  pose proof (escribir_forma _ _ _ _ Hf1 Ho Ht2) as Hf2.
  unfold __actualiza_estado.
  rewrite (leer_celda _ _ Hf Ho), (leer_celda _ _ Hf Hd). cbn.
  rewrite Ht1. cbn. rewrite Ht2. cbn.
  rewrite Hnf, Hnc, (serializa_forma t2 Hf2). cbn.
  eexists. split; [reflexivity|]. cbn.
  split; [done|].
  split.
  { rewrite (celda_escribir _ _ _ _ _ Hf1 Ho Hd Ht2), decide_False by done.
    by rewrite (celda_escribir _ _ _ _ _ Hf Hd Hd Ht1), decide_True. }
  split.
  { by rewrite (celda_escribir _ _ _ _ _ Hf1 Ho Ho Ht2), decide_True. }
  split.
  { intros p Hp Hpo Hpd.
    rewrite (celda_escribir _ _ _ _ _ Hf1 Ho Hp Ht2), decide_False by done.
    by rewrite (celda_escribir _ _ _ _ _ Hf Hd Hp Ht1), decide_False. }
  split.
  { repeat case_decide; done. }
  split; [done|].
  split.
  { intros [E|E]; rewrite E; by repeat case_decide. }
  split; [|eauto]. by rewrite (serializa_forma t2 Hf2).
Qed.

(** ** Move generator *)

Lemma en_rango_true (n i : Z) : en_rango n i = true ↔ 0 ≤ i < n.
Proof. unfold en_rango. apply bool_decide_eq_true. Qed.

Lemma en_rango_false (n i : Z) : en_rango n i = false ↔ ¬ (0 ≤ i < n).
Proof. unfold en_rango. apply bool_decide_eq_false. Qed.

Lemma elem_of_si {A} (P : Prop) `{!Decision P} (x m : A) :
  m ∈ (if decide P then [x] else []) ↔ P ∧ m = x.
Proof.
  case_decide.
  - rewrite list_elem_of_singleton. tauto.
  - rewrite elem_of_nil. tauto.
Qed.

(** The three candidate cells of a pawn, each guarded as in the source. *)
Lemma movimientos_peon_forma (t : tablero) (i j jugador : Z) :
  forma t → en_tablero (i, j) → jugador = 1 ∨ jugador = -1 →
  __movimientos_peon t (i, j) jugador
  = Some ((if decide (0 ≤ i + jugador < N_FILAS ∧ celda t (i + jugador, j) = 0)
           then [((i, j), (i + jugador, j))] else [])
          ++ (if decide (en_tablero (i + jugador, j - 1)
                         ∧ celda t (i + jugador, j - 1) * jugador < 0)
              then [((i, j), (i + jugador, j - 1))] else [])
          ++ (if decide (en_tablero (i + jugador, j + 1)
                         ∧ celda t (i + jugador, j + 1) * jugador < 0)
              then [((i, j), (i + jugador, j + 1))] else [])).
Proof.
  intros Hf [Hi Hj] Hjug. simpl in Hi, Hj.
  unfold __movimientos_peon.
  assert ((if decide (jugador = 1) then 1 else -1) = jugador) as ->.
  { destruct Hjug as [-> | ->]; by case_decide. }
  assert (∀ c, en_rango N_FILAS (i + jugador) && en_rango N_COLS c = true
               ↔ en_tablero (i + jugador, c)) as Hdiag.
  { intros c. rewrite andb_true_iff, !en_rango_true. done. }
  assert (∀ (g : bool) p (m : mov),
            (g = true ↔ en_tablero p) →
            (if g then c ← leer t p;
                       Some (if decide (c * jugador < 0) then [m] else [])
             else Some [])
            = Some (if decide (en_tablero p ∧ celda t p * jugador < 0)
                    then [m] else []))
    as Hcand.
  { intros g p m Hg. destruct g.
    - assert (en_tablero p) as Hp by by apply Hg.
      rewrite (leer_celda t p Hf Hp). cbn. f_equal.
      repeat case_decide; tauto.
    - rewrite decide_False; [done|]. intros [Hp _]. apply Hg in Hp. done. }
  rewrite (Hcand _ _ ((i, j), (i + jugador, j - 1)) (Hdiag (j - 1))).
  rewrite (Hcand _ _ ((i, j), (i + jugador, j + 1)) (Hdiag (j + 1))).
  clear Hcand.
  destruct (en_rango N_FILAS (i + jugador)) eqn:E.
  - apply en_rango_true in E.
    rewrite (leer_celda t (i + jugador, j) Hf) by done. cbn.
    do 2 f_equal. repeat case_decide; tauto.
  - apply en_rango_false in E. cbn.
    rewrite (decide_False (P := _ ∧ celda t (i + jugador, j) = 0)) by tauto.
    done.
Qed.

(** C8. On a well-shaped board, the moves generated for a pawn of side
    [jugador] standing on [(i, j)] are exactly: the cell one row forward
    (row [i + 1] for side 1, row [i - 1] for side -1) when it is on the
    board and empty, and each of the two cells diagonally forward when it
    is on the board and holds a piece of the other side. *)
Theorem movimientos_peon_exactos (t : tablero) (i j jugador : Z) :
  forma t → en_tablero (i, j) → jugador = 1 ∨ jugador = -1 →
  ∃ l, __movimientos_peon t (i, j) jugador = Some l
    ∧ ∀ m : mov, m ∈ l ↔
        m.1 = (i, j) ∧ en_tablero m.2 ∧ (m.2).1 = i + jugador
        ∧ (((m.2).2 = j ∧ celda t m.2 = 0)
           ∨ (((m.2).2 = j - 1 ∨ (m.2).2 = j + 1) ∧ celda t m.2 * jugador < 0)).
Proof.
  intros Hf Ho Hjug. eexists. split; [by apply movimientos_peon_forma|].
  intros [o [di dj]]. rewrite !elem_of_app, !elem_of_si. simpl.
  destruct Ho as [Hi Hj]. unfold en_tablero in *. simpl in *.
  split.
  - intros [[[? ?] E] | [[[[? ?] ?] E] | [[[? ?] ?] E]]];
      injection E as -> -> ->; (split; [done|]); (split; [lia|]); (split; [done|]).
    + by left.
    + right. split; [by left | done].
    + right. split; [by right | done].
  - intros (-> & [? ?] & -> & [[-> ?] | [[-> | ->] ?]]).
    + left. repeat split; auto; lia.
    + right; left. repeat split; auto; lia.
    + right; right. repeat split; auto; lia.
Qed.

(** *** Rook rays *)

Section torre.
Context (t : tablero) (origen : pos) (jugador : Z).
Hypothesis Hforma : forma t.

(** What a completed ray holds, whatever the fuel it was given: the
    cells reached from the start through on-board empty cells, each of
    them empty or held by the other side. *)
Lemma rayo_Some (di dj : Z) (fuel : nat) : ∀ (ni nj : Z) (l : list mov),
  rayo fuel t origen jugador di dj ni nj = Some l →
  ∀ m : mov, m ∈ l ↔
    ∃ k : Z, 0 ≤ k ∧ m = (origen, (ni + k * di, nj + k * dj))
      ∧ en_tablero (ni + k * di, nj + k * dj)
      ∧ (∀ k', 0 ≤ k' < k →
           en_tablero (ni + k' * di, nj + k' * dj)
           ∧ celda t (ni + k' * di, nj + k' * dj) = 0)
      ∧ (celda t (ni + k * di, nj + k * dj) = 0
         ∨ celda t (ni + k * di, nj + k * dj) * jugador < 0).
Proof.
  induction fuel as [|fuel IH]; intros ni nj l Hl m; [discriminate|].
  cbn [rayo] in Hl.
  assert (∀ k, k = 0 → (ni + k * di, nj + k * dj) = (ni, nj)) as H0.
  { intros k ->. f_equal; lia. }
  destruct (en_rango N_FILAS ni && en_rango N_COLS nj) eqn:Hr.
  - apply andb_true_iff in Hr as [Hi Hj].
    apply en_rango_true in Hi, Hj.
    assert (en_tablero (ni, nj)) as Hp by done.
    rewrite (leer_celda t _ Hforma Hp) in Hl. cbn in Hl.
    destruct (decide (celda t (ni, nj) = 0)) as [Hc|Hc].
    + destruct (rayo fuel t origen jugador di dj (ni + di) (nj + dj))
        as [resto|] eqn:Hresto; [|discriminate].
      cbn in Hl. injection Hl as <-.
      rewrite elem_of_cons, (IH _ _ _ Hresto). split.
      * intros [-> | (k & Hk & -> & Hd & Hvac & Hfin)].
        -- exists 0. rewrite (H0 0) by done.
           split_and!; auto; try lia.
        -- exists (k + 1).
           replace (ni + (k + 1) * di) with (ni + di + k * di) by lia.
           replace (nj + (k + 1) * dj) with (nj + dj + k * dj) by lia.
           split_and!; auto; try lia.
           intros k' Hk'. destruct (decide (k' = 0)) as [->|Hne].
           ++ rewrite (H0 0) by done. done.
           ++ replace (ni + k' * di) with (ni + di + (k' - 1) * di) by lia.
              replace (nj + k' * dj) with (nj + dj + (k' - 1) * dj) by lia.
              apply Hvac. lia.
      * intros (k & Hk & -> & Hd & Hvac & Hfin).
        destruct (decide (k = 0)) as [->|Hne].
        -- left. by rewrite (H0 0).
        -- right. exists (k - 1).
           replace (ni + di + (k - 1) * di) with (ni + k * di) by lia.
           replace (nj + dj + (k - 1) * dj) with (nj + k * dj) by lia.
           split_and!; auto; try lia.
           intros k' Hk'.
           replace (ni + di + k' * di) with (ni + (k' + 1) * di) by lia.
           replace (nj + dj + k' * dj) with (nj + (k' + 1) * dj) by lia.
           apply Hvac. lia.
    + assert (∀ k, 0 ≤ k →
                (∀ k', 0 ≤ k' < k →
                   en_tablero (ni + k' * di, nj + k' * dj)
                   ∧ celda t (ni + k' * di, nj + k' * dj) = 0) →
                k = 0) as Hsolo.
      { intros k Hk Hvac. destruct (decide (k = 0)) as [|Hne]; [done|].
        destruct (Hvac 0) as [_ Hz]; [lia|].
        rewrite (H0 0) in Hz by done. done. }
      destruct (decide (celda t (ni, nj) * jugador < 0)) as [He|He];
        injection Hl as <-.
      * rewrite list_elem_of_singleton. split.
        -- intros ->. exists 0. rewrite (H0 0) by done.
           split_and!; auto; try lia.
        -- intros (k & Hk & -> & _ & Hvac & _).
           by rewrite (H0 k) by by apply Hsolo.
      * rewrite elem_of_nil. split; [done|].
        intros (k & Hk & _ & _ & Hvac & Hfin).
        rewrite (H0 k) in Hfin by by apply Hsolo. tauto.
  - injection Hl as <-. rewrite elem_of_nil. split; [done|].
    intros (k & Hk & _ & Hd & Hvac & _).
    assert (en_tablero (ni, nj)) as [Hi Hj].
    { destruct (decide (k = 0)) as [->|Hne].
      - by rewrite (H0 0) in Hd.
      - destruct (Hvac 0) as [Hz _]; [lia|]. by rewrite (H0 0) in Hz. }
    apply andb_false_iff in Hr as [Hr|Hr]; apply en_rango_false in Hr; done.
Qed.

(** The loop ends: with more fuel than cells left on the ray, the ray is
    completed. *)
Lemma rayo_termina (di dj : Z) (fuel : nat) : ∀ ni nj : Z,
  (di, dj) ∈ direcciones_torre →
  Z.max 0 (salida di dj ni nj) < Z.of_nat fuel →
  is_Some (rayo fuel t origen jugador di dj ni nj).
Proof.
  induction fuel as [|fuel IH]; intros ni nj Hdir Hfuel; [lia|].
  cbn [rayo].
  destruct (en_rango N_FILAS ni && en_rango N_COLS nj) eqn:Hr; [|eauto].
  apply andb_true_iff in Hr as [Hi Hj].
  apply en_rango_true in Hi, Hj.
  assert (en_tablero (ni, nj)) as Hp by done.
  rewrite (leer_celda t _ Hforma Hp). cbn.
  destruct (decide (celda t (ni, nj) = 0)); [|case_decide; eauto].
  destruct (IH (ni + di) (nj + dj) Hdir) as [resto ->]; [|cbn; eauto].
  unfold direcciones_torre in Hdir. unfold salida, N_FILAS, N_COLS in *.
  repeat (apply elem_of_cons in Hdir as [E|Hdir];
          [injection E as -> ->; repeat case_decide; lia|]).
  by apply elem_of_nil in Hdir.
Qed.

End torre.

Lemma rayo_desde_origen (t : tablero) (i j jugador di dj : Z) (fuel : nat)
    (l : list mov) :
  forma t → en_tablero (i, j) → (di, dj) ∈ direcciones_torre →
  rayo fuel t (i, j) jugador di dj (i + di) (j + dj) = Some l →
  ∀ m : mov, m ∈ l ↔
    m.1 = (i, j) ∧ en_tablero m.2
    ∧ (celda t m.2 = 0 ∨ celda t m.2 * jugador < 0)
    ∧ ∃ k, 1 ≤ k ∧ m.2 = (i + k * di, j + k * dj)
        ∧ ∀ k', 1 ≤ k' < k → celda t (i + k' * di, j + k' * dj) = 0.
Proof.
  intros Hf Ho Hdir Hl m.
  rewrite (rayo_Some t (i, j) jugador Hf di dj fuel _ _ l Hl m).
  assert (∀ k, (i + di + k * di, j + dj + k * dj)
               = (i + (k + 1) * di, j + (k + 1) * dj)) as Hpaso.
  { intros k. f_equal; lia. }
  split.
  - intros (k & Hk & -> & Hd & Hvac & Hfin). simpl.
    rewrite Hpaso in Hd, Hfin |- *. split_and!; auto.
    exists (k + 1). split_and!; [lia|done|].
    intros k' Hk'. destruct (Hvac (k' - 1)) as [_ Hz]; [lia|].
    rewrite Hpaso in Hz. by replace (k' - 1 + 1) with k' in Hz by lia.
  - destruct m as [o d]. simpl. intros (-> & Hd & Hfin & k & Hk & -> & Hvac).
    exists (k - 1). rewrite Hpaso. replace (k - 1 + 1) with k by lia.
    split_and!; auto; [lia|].
    intros k' Hk'. rewrite Hpaso. split; [|apply Hvac; lia].
    destruct Ho as [Hi Hj], Hd as [Hdi Hdj].
    unfold en_tablero, direcciones_torre, N_FILAS, N_COLS in *. simpl in *.
    repeat (apply elem_of_cons in Hdir as [E|Hdir];
            [injection E as -> ->; lia|]).
    by apply elem_of_nil in Hdir.
Qed.

(** The four rays of a rook on the board are all completed. *)
Lemma movimientos_torre_forma (t : tablero) (i j jugador : Z) :
  forma t → en_tablero (i, j) →
  ∃ l1 l2 l3 l4,
    rayo fuel_rayo t (i, j) jugador (-1) 0 (i + -1) (j + 0) = Some l1
    ∧ rayo fuel_rayo t (i, j) jugador 1 0 (i + 1) (j + 0) = Some l2
    ∧ rayo fuel_rayo t (i, j) jugador 0 (-1) (i + 0) (j + -1) = Some l3
    ∧ rayo fuel_rayo t (i, j) jugador 0 1 (i + 0) (j + 1) = Some l4
    ∧ __movimientos_torre t (i, j) jugador = Some (l1 ++ l2 ++ l3 ++ l4).
Proof.
  intros Hf Ho.
  assert (∀ di dj, (di, dj) ∈ direcciones_torre →
            is_Some (rayo fuel_rayo t (i, j) jugador di dj (i + di) (j + dj)))
    as Htot.
  { intros di dj Hdir. apply rayo_termina; [done..|].
    destruct Ho as [Hi Hj]. change (Z.of_nat fuel_rayo) with 5.
    unfold direcciones_torre, salida, N_FILAS, N_COLS in *. simpl in *.
    repeat (apply elem_of_cons in Hdir as [E|Hdir];
            [injection E as -> ->; repeat case_decide; lia|]).
    by apply elem_of_nil in Hdir. }
  destruct (Htot (-1) 0) as [l1 H1];
    [unfold direcciones_torre;
     repeat first [apply list_elem_of_here | apply list_elem_of_further]|].
  destruct (Htot 1 0) as [l2 H2];
    [unfold direcciones_torre;
     repeat first [apply list_elem_of_here | apply list_elem_of_further]|].
  destruct (Htot 0 (-1)) as [l3 H3];
    [unfold direcciones_torre;
     repeat first [apply list_elem_of_here | apply list_elem_of_further]|].
  destruct (Htot 0 1) as [l4 H4];
    [unfold direcciones_torre;
     repeat first [apply list_elem_of_here | apply list_elem_of_further]|].
  exists l1, l2, l3, l4. split_and!; try done.
  unfold __movimientos_torre, direcciones_torre. cbn [mapM].
  rewrite H1, H2, H3, H4. cbn. by rewrite app_nil_r.
Qed.

(** C7. On a well-shaped board, the moves generated for a rook of side
    [jugador] standing on [(i, j)] are exactly the cells [k >= 1] steps
    away along one of the four orthogonal directions, up [(-1, 0)], down
    [(1, 0)], left [(0, -1)] or right [(0, 1)], such that every cell
    strictly between the rook and the destination is empty and the
    destination is empty or holds a piece of the other side. So a ray goes
    through empty cells only, stops on the first occupied cell (taking it
    when it is an opposing piece), and no cell beyond the first occupied
    one, and no cell holding an own piece, is ever a destination. *)
Theorem movimientos_torre_rayos (t : tablero) (i j jugador : Z) :
  forma t → en_tablero (i, j) →
  ∃ l, __movimientos_torre t (i, j) jugador = Some l
    ∧ ∀ m : mov, m ∈ l ↔
        m.1 = (i, j) ∧ en_tablero m.2
        ∧ (celda t m.2 = 0 ∨ celda t m.2 * jugador < 0)
        ∧ ∃ di dj k,
            ((di, dj) = (-1, 0) ∨ (di, dj) = (1, 0)
             ∨ (di, dj) = (0, -1) ∨ (di, dj) = (0, 1))
            ∧ 1 ≤ k
            ∧ m.2 = (i + k * di, j + k * dj)
            ∧ ∀ k', 1 ≤ k' < k → celda t (i + k' * di, j + k' * dj) = 0.
Proof.
  intros Hf Ho.
  destruct (movimientos_torre_forma t i j jugador Hf Ho)
    as (l1 & l2 & l3 & l4 & H1 & H2 & H3 & H4 & Hl).
  assert ((-1, 0) ∈ direcciones_torre) as D1
    by (unfold direcciones_torre;
        repeat first [apply list_elem_of_here | apply list_elem_of_further]).
  assert ((1, 0) ∈ direcciones_torre) as D2
    by (unfold direcciones_torre;
        repeat first [apply list_elem_of_here | apply list_elem_of_further]).
  assert ((0, -1) ∈ direcciones_torre) as D3
    by (unfold direcciones_torre;
        repeat first [apply list_elem_of_here | apply list_elem_of_further]).
  assert ((0, 1) ∈ direcciones_torre) as D4
    by (unfold direcciones_torre;
        repeat first [apply list_elem_of_here | apply list_elem_of_further]).
  exists (l1 ++ l2 ++ l3 ++ l4). split; [done|].
  intros m. rewrite !elem_of_app.
  rewrite (rayo_desde_origen _ _ _ _ _ _ _ _ Hf Ho D1 H1 m).
  rewrite (rayo_desde_origen _ _ _ _ _ _ _ _ Hf Ho D2 H2 m).
  rewrite (rayo_desde_origen _ _ _ _ _ _ _ _ Hf Ho D3 H3 m).
  rewrite (rayo_desde_origen _ _ _ _ _ _ _ _ Hf Ho D4 H4 m).
  split.
  - intros [H | [H | [H | H]]];
      destruct H as (Hm1 & Hd & Hfin & k & Hk & Hm2 & Hvac);
      (split_and!; auto);
      [exists (-1), 0, k | exists 1, 0, k | exists 0, (-1), k | exists 0, 1, k];
      (split; [tauto|]); split_and!; auto.
  - intros (Hm1 & Hd & Hfin & di & dj & k & Hdir & Hk & Hm2 & Hvac).
    destruct Hdir as [E | [E | [E | E]]]; injection E as -> ->.
    + left. split_and!; eauto.
    + right; left. split_and!; eauto.
    + right; right; left. split_and!; eauto.
    + right; right; right. split_and!; eauto.
Qed.

(** *** King steps and the whole generator *)

Lemma movimientos_rey_is_Some (t : tablero) (origen : pos) (jugador : Z) :
  forma t → is_Some (__movimientos_rey t origen jugador).
Proof.
  intros Hf. unfold __movimientos_rey. destruct origen as [i j].
  match goal with
  | |- is_Some (mapM ?f ?l ≫= _) =>
      destruct (mapM_is_Some_2 f l) as [pasos ->]; [|cbn; eauto]
  end.
  apply Forall_forall. intros [di dj] _. simpl.
  destruct (en_rango N_FILAS (i + di) && en_rango N_COLS (j + dj)) eqn:Hr; [|eauto].
  apply andb_true_iff in Hr as [Hi Hj]. apply en_rango_true in Hi, Hj.
  rewrite (leer_celda t (i + di, j + dj) Hf) by done. cbn. eauto.
Qed.

Lemma movimientos_de_casilla_is_Some (t : tablero) (jugador : Z) (origen : pos) :
  forma t → en_tablero origen →
  is_Some (movimientos_de_casilla t jugador origen).
Proof.
  intros Hf Ho. unfold movimientos_de_casilla.
  rewrite (leer_celda t origen Hf Ho). cbn. destruct origen as [i j].
  case_decide as Hj; [|eauto].
  repeat case_decide; eauto.
  - rewrite movimientos_peon_forma; [eauto|done|done|tauto].
  - destruct (movimientos_torre_forma t i j jugador Hf Ho)
      as (l1 & l2 & l3 & l4 & _ & _ & _ & _ & ->). eauto.
  - by apply movimientos_rey_is_Some.
Qed.

Lemma calcular_movimientos_validos_is_Some (t : tablero) (jugador : Z) :
  forma t → is_Some (__calcular_movimientos_validos t jugador).
Proof.
  intros Hf. unfold __calcular_movimientos_validos.
  destruct (mapM_is_Some_2 (movimientos_de_casilla t jugador) casillas)
    as [l ->]; [|cbn; eauto].
  apply Forall_forall. intros p Hp.
  by apply movimientos_de_casilla_is_Some, en_tablero_casillas.
Qed.

(** *** Generated moves stay on the board *)

Lemma mapM_concat_elem {A B} (f : A → option (list B)) (l : list A)
    (ls : list (list B)) (x : B) :
  mapM f l = Some ls → x ∈ concat ls →
  ∃ a lb, a ∈ l ∧ f a = Some lb ∧ x ∈ lb.
Proof.
  revert ls. induction l as [|a l IH]; intros ls Hl Hx.
  - injection Hl as <-. by apply elem_of_nil in Hx.
  - cbn in Hl. destruct (f a) as [lb|] eqn:Ha; cbn in Hl; [|done].
    destruct (mapM f l) as [ls'|]; cbn in Hl; [|done].
    injection Hl as <-. simpl in Hx. apply elem_of_app in Hx as [Hx|Hx].
    + exists a, lb. split_and!; auto. apply list_elem_of_here.
    + destruct (IH ls' eq_refl Hx) as (a' & lb' & Ha' & Hf & Hin).
      exists a', lb'. split_and!; auto. by apply list_elem_of_further.
Qed.

Lemma movimientos_rey_en_tablero (t : tablero) (origen : pos) (jugador : Z)
    (l : list mov) (m : mov) :
  __movimientos_rey t origen jugador = Some l → m ∈ l →
  m.1 = origen ∧ en_tablero m.2.
Proof.
  unfold __movimientos_rey. destruct origen as [i j]. intros Hl Hm.
  match type of Hl with
  | mapM ?f ?d ≫= _ = _ => destruct (mapM f d) as [pasos|] eqn:Hp
  end; cbn in Hl; [|done].
  injection Hl as <-.
  destruct (mapM_concat_elem _ _ _ _ Hp Hm) as ([di dj] & lb & _ & Hlb & Hin).
  simpl in Hlb.
  destruct (en_rango N_FILAS (i + di) && en_rango N_COLS (j + dj)) eqn:Hr.
  - apply andb_true_iff in Hr as [Hi Hj]. apply en_rango_true in Hi, Hj.
    destruct (leer t (i + di, j + dj)) as [c|]; cbn in Hlb; [|done].
    injection Hlb as <-. apply elem_of_si in Hin as [_ ->]. done.
  - injection Hlb as <-. by apply elem_of_nil in Hin.
Qed.

Lemma movimientos_de_casilla_forma (t : tablero) (jugador : Z) (origen : pos) :
  forma t → en_tablero origen →
  movimientos_de_casilla t jugador origen
  = if decide ((jugador = 1 ∧ celda t origen > 0)
               ∨ (jugador = -1 ∧ celda t origen < 0))
    then if decide (Z.abs (celda t origen) = PEON)
         then __movimientos_peon t origen jugador
         else if decide (Z.abs (celda t origen) = TORRE)
              then __movimientos_torre t origen jugador
              else if decide (Z.abs (celda t origen) = REY)
                   then __movimientos_rey t origen jugador
                   else Some []
    else Some [].
Proof.
  intros Hf Ho. unfold movimientos_de_casilla.
  by rewrite (leer_celda t origen Hf Ho).
Qed.

Lemma movimientos_validos_en_tablero (t : tablero) (jugador : Z) (l : list mov) :
  forma t → __calcular_movimientos_validos t jugador = Some l →
  Forall mov_en_tablero l.
Proof.
  intros Hf Hl. apply Forall_forall. intros m Hm.
  unfold __calcular_movimientos_validos in Hl.
  destruct (mapM (movimientos_de_casilla t jugador) casillas) as [ls|] eqn:Hls;
    cbn in Hl; [|done].
  injection Hl as <-.
  destruct (mapM_concat_elem _ _ _ _ Hls Hm) as ([i j] & lb & Ho & Hlb & Hin).
  apply en_tablero_casillas in Ho.
  rewrite (movimientos_de_casilla_forma t jugador _ Hf Ho) in Hlb.
  destruct (decide ((jugador = 1 ∧ celda t (i, j) > 0)
                    ∨ (jugador = -1 ∧ celda t (i, j) < 0))) as [Hj|_];
    [|injection Hlb as <-; by apply elem_of_nil in Hin].
  assert (m.1 = (i, j) ∧ en_tablero m.2) as [Hm1 Hm2];
    [|by split; [rewrite Hm1|]].
  destruct (decide (Z.abs (celda t (i, j)) = PEON)) as [_|_];
    [|destruct (decide (Z.abs (celda t (i, j)) = TORRE)) as [_|_];
      [|destruct (decide (Z.abs (celda t (i, j)) = REY)) as [_|_]]].
  - rewrite movimientos_peon_forma in Hlb by tauto. injection Hlb as <-.
    rewrite !elem_of_app, !elem_of_si in Hin.
    destruct Ho as [_ Hcol]. simpl in Hcol.
    destruct Hin as [[[? _] ->] | [[[? _] ->] | [[? _] ->]]]; split; done.
  - unfold __movimientos_torre in Hlb.
    match type of Hlb with
    | mapM ?f ?d ≫= _ = _ => destruct (mapM f d) as [rayos|] eqn:Hr
    end; cbn in Hlb; [|done].
    injection Hlb as <-.
    destruct (mapM_concat_elem _ _ _ _ Hr Hin) as ([di dj] & lr & Hd & Hlr & Hinr).
    cbv beta iota in Hlr.
    apply (rayo_desde_origen _ _ _ _ _ _ _ _ Hf Ho Hd Hlr) in Hinr. tauto.
  - by apply (movimientos_rey_en_tablero _ _ _ _ _ Hlb).
  - injection Hlb as <-. by apply elem_of_nil in Hin.
Qed.

(** ** Terminal evaluation *)

Lemma foldl_marca_rey (cs : list Z) (r1 r2 : bool) :
  foldl marca_rey (r1, r2) cs
  = (r1 || existsb (λ c, bool_decide (c = REY)) cs,
     r2 || existsb (λ c, bool_decide (c = - REY)) cs).
Proof.
  revert r1 r2. induction cs as [|c cs IH]; intros r1 r2; simpl.
  - by rewrite !orb_false_r.
  - unfold marca_rey at 2. simpl.
    destruct (decide (c = REY)) as [->|H1].
    + rewrite IH. rewrite bool_decide_eq_true_2 by done.
      rewrite (bool_decide_eq_false_2 (REY = - REY)) by done.
      simpl. by rewrite orb_true_r.
    + rewrite (bool_decide_eq_false_2 (c = REY)) by done.
      destruct (decide (c = - REY)) as [->|H2].
      * rewrite IH. rewrite bool_decide_eq_true_2 by done.
        simpl. by rewrite orb_true_r.
      * rewrite IH. by rewrite (bool_decide_eq_false_2 (c = - REY)) by done.
Qed.

Lemma existsb_celdas (t : tablero) (v : Z) :
  existsb (λ c, bool_decide (c = v)) (celda t <$> casillas) = true
  ↔ ∃ p, en_tablero p ∧ celda t p = v.
Proof.
  rewrite existsb_exists. split.
  - intros (c & Hc & Hv). apply list_elem_of_In, list_elem_of_fmap in Hc as (p & -> & Hp).
    exists p. split; [by apply en_tablero_casillas|].
    by apply bool_decide_eq_true in Hv.
  - intros (p & Hp & Hv). exists (celda t p). split.
    + apply list_elem_of_In, list_elem_of_fmap. exists p.
      split; [done|by apply en_tablero_casillas].
    + by apply bool_decide_eq_true.
Qed.

Lemma busca_reyes_forma (t : tablero) :
  forma t →
  ∃ r1 r2, busca_reyes t = Some (r1, r2)
    ∧ (r1 = true ↔ hay_rey t 1) ∧ (r2 = true ↔ hay_rey t (-1)).
Proof.
  intros Hf. unfold busca_reyes. rewrite (leer_casillas t Hf). cbn.
  rewrite foldl_marca_rey. simpl. eexists _, _. split; [done|].
  unfold hay_rey. split; apply existsb_celdas.
Qed.

Lemma forma_inicial : forma inicializar_tablero.
Proof. split; [reflexivity|]. repeat constructor. Qed.

Lemma hay_rey_decidible (t : tablero) (jugador : Z) :
  hay_rey t jugador
  ↔ existsb (λ c, bool_decide (c = jugador * REY)) (celda t <$> casillas) = true.
Proof. symmetry. apply existsb_celdas. Qed.

(** C4 (as amended). On a well-shaped board, when the king of side 2
    (code -6) is absent and the king of side 1 is present, the evaluation
    returns 1; the king of side 1 is looked for first, so that its absence
    gives -1 whether or not the king of side 2 is there. *)
Theorem calcula_ganador_rey_capturado (s : JuegoMiniChess) :
  forma (_tablero s) →
  (¬ hay_rey (_tablero s) (-1) → hay_rey (_tablero s) 1 →
   __calcula_ganador s = Some (Some 1, con_fin true s))
  ∧ (¬ hay_rey (_tablero s) 1 →
     __calcula_ganador s = Some (Some (-1), con_fin true s)).
Proof.
  intros Hf.
  destruct (busca_reyes_forma _ Hf) as (r1 & r2 & Hr & H1 & H2).
  unfold __calcula_ganador. rewrite Hr. cbn. split.
  - intros Hno Hsi. apply H1 in Hsi as ->.
    destruct r2; [|done]. exfalso. by apply Hno, H2.
  - intros Hno. destruct r1; [|done]. exfalso. by apply Hno, H1.
Qed.

Lemma calcula_ganador_rey_capturado_ejemplo :
  __calcula_ganador (con_tablero tablero_sin_rey_j2 JuegoMiniChess_init)
  = Some (Some 1, con_fin true (con_tablero tablero_sin_rey_j2 JuegoMiniChess_init)).
Proof.
  apply (calcula_ganador_rey_capturado
           (con_tablero tablero_sin_rey_j2 JuegoMiniChess_init)).
  - split; [reflexivity|]. repeat constructor.
  - rewrite hay_rey_decidible. vm_compute. discriminate.
  - rewrite hay_rey_decidible. vm_compute. reflexivity.
Defined.

(** C4 (as stated) fails on a board without kings: the king of side 2 is
    absent and the evaluation returns -1, not 1. *)
Lemma calcula_ganador_sin_reyes :
  forma tablero_sin_reyes
  ∧ ¬ hay_rey tablero_sin_reyes (-1)
  ∧ fst <$> __calcula_ganador (con_tablero tablero_sin_reyes JuegoMiniChess_init)
    = Some (Some (-1))
  ∧ fst <$> __calcula_ganador (con_tablero tablero_sin_reyes JuegoMiniChess_init)
    ≠ Some (Some 1).
Proof.
  split_and!.
  - split; [reflexivity|]. repeat constructor.
  - rewrite hay_rey_decidible. vm_compute. discriminate.
  - reflexivity.
  - vm_compute. discriminate.
Qed.

Lemma calcula_ganador_con_siguiente (s : JuegoMiniChess) (j : Z) :
  fst <$> __calcula_ganador (con_siguiente j s) = fst <$> __calcula_ganador s.
Proof.
  unfold __calcula_ganador. cbn [_tablero _turnos_sin_captura con_siguiente].
  destruct (busca_reyes (_tablero s)) as [[[] []]|]; cbn; try done.
  destruct (__calcular_movimientos_validos (_tablero s) 1); cbn; try done.
  destruct (__calcular_movimientos_validos (_tablero s) (-1)); cbn; try done.
  repeat case_decide; done.
Qed.

(** C1 (as amended). On a well-shaped board with both kings, when the
    side about to move has no legal move the evaluation returns a win for
    the other side, provided that side is side 1 or side 1 has a move of
    its own; this holds whatever the no-capture counter, so the check
    comes before the draw by 50 turns. The evaluation never consults the
    side to move: it looks at the moves of side 1 first, then at those of
    side 2. *)
Theorem calcula_ganador_sin_movimientos (s : JuegoMiniChess) :
  forma (_tablero s) →
  hay_rey (_tablero s) 1 → hay_rey (_tablero s) (-1) →
  (_siguiente_jugador s = 1 ∨ _siguiente_jugador s = -1) →
  __calcular_movimientos_validos (_tablero s) (_siguiente_jugador s) = Some [] →
  (_siguiente_jugador s = 1
   ∨ ∃ l, __calcular_movimientos_validos (_tablero s) 1 = Some l ∧ l ≠ []) →
  __calcula_ganador s = Some (Some (- _siguiente_jugador s), con_fin true s)
  ∧ ∀ j, fst <$> __calcula_ganador (con_siguiente j s)
         = fst <$> __calcula_ganador s.
Proof.
  intros Hf Hr1 Hr2 Hj Hvacio Hprimero.
  split; [|intros j; apply calcula_ganador_con_siguiente].
  destruct (busca_reyes_forma _ Hf) as (r1 & r2 & Hr & H1 & H2).
  apply H1 in Hr1 as ->. apply H2 in Hr2 as ->.
  unfold __calcula_ganador. rewrite Hr. cbn.
  destruct Hprimero as [E | (l & Hl & Hne)].
  - rewrite E in *. rewrite Hvacio. cbn.
    destruct (calcular_movimientos_validos_is_Some (_tablero s) (-1) Hf) as [l2 ->].
    done.
  - destruct Hj as [E | E]; rewrite E in *; [congruence|].
    rewrite Hl, Hvacio. cbn.
    rewrite decide_False by (by destruct l).
    by rewrite decide_True.
Qed.

Lemma calcula_ganador_sin_movimientos_ejemplo :
  let s := con_turnos 50 (con_tablero tablero_j1_bloqueado JuegoMiniChess_init) in
  _siguiente_jugador s = 1 ∧ _turnos_sin_captura s = 50
  ∧ __calcula_ganador s = Some (Some (-1), con_fin true s).
Proof.
  split; [reflexivity|]. split; [reflexivity|].
  apply (calcula_ganador_sin_movimientos
           (con_turnos 50 (con_tablero tablero_j1_bloqueado JuegoMiniChess_init))).
  - split; [reflexivity|]. repeat constructor.
  - rewrite hay_rey_decidible. vm_compute. reflexivity.
  - rewrite hay_rey_decidible. vm_compute. reflexivity.
  - left. reflexivity.
  - vm_compute. reflexivity.
  - left. reflexivity.
Defined.

(** C1 (as stated) fails when neither side can move and side 2 is about
    to move: both kings are there, the side about to move has no legal
    move, and the evaluation returns -1, a win for that very side. *)
Lemma calcula_ganador_doble_bloqueo :
  let s := con_siguiente (-1) (con_tablero tablero_bloqueado JuegoMiniChess_init) in
  forma (_tablero s)
  ∧ hay_rey (_tablero s) 1 ∧ hay_rey (_tablero s) (-1)
  ∧ __calcular_movimientos_validos (_tablero s) (_siguiente_jugador s) = Some []
  ∧ fst <$> __calcula_ganador s = Some (Some (-1))
  ∧ fst <$> __calcula_ganador s ≠ Some (Some (- _siguiente_jugador s)).
Proof.
  split_and!.
  - split; [reflexivity|]. repeat constructor.
  - rewrite hay_rey_decidible. vm_compute. reflexivity.
  - rewrite hay_rey_decidible. vm_compute. reflexivity.
  - vm_compute. reflexivity.
  - vm_compute. reflexivity.
  - vm_compute. discriminate.
Qed.

(** ** Serialization *)

Section cadenas.
Implicit Types (a b : string) (xs ys : list string).

Lemma append_nil_l b : "" +:+ b = b.
Proof. reflexivity. Qed.

Lemma append_cons c a b : String c a +:+ b = String c (a +:+ b).
Proof. reflexivity. Qed.

Lemma length_append a b :
  String.length (a +:+ b) = (String.length a + String.length b)%nat.
Proof.
  induction a as [|c a IH]; [done|].
  rewrite append_cons. simpl. by rewrite IH.
Qed.

Lemma append_assoc a b c : (a +:+ b) +:+ c = a +:+ b +:+ c.
Proof.
  induction a as [|x a IH]; [done|].
  rewrite !append_cons. by rewrite IH.
Qed.

Lemma append_inj_length a a' b b' :
  String.length a = String.length a' →
  a +:+ b = a' +:+ b' → a = a' ∧ b = b'.
Proof.
  revert a'. induction a as [|c a IH]; intros [|c' a'] Hlen Heq;
    try discriminate; [done|].
  rewrite !append_cons in Heq. injection Heq as -> Heq.
  injection Hlen as Hlen.
  destruct (IH a' Hlen Heq) as [-> ->]. done.
Qed.

Lemma length_espacios n : String.length (espacios n) = n.
Proof. induction n as [|n IH]; simpl; [done|]. by rewrite IH. Qed.

(** Blocks of one width, joined by spaces and closed by a bracket, can
    be read back one by one. *)
Lemma concat_bloques_inj (w : nat) xs : ∀ ys,
  Forall (λ x, String.length x = w) xs →
  Forall (λ y, String.length y = w) ys →
  length xs = length ys →
  String.concat " " xs +:+ "]" = String.concat " " ys +:+ "]" →
  xs = ys.
Proof.
  induction xs as [|x xs IH]; intros [|y ys] Hxs Hys Hlen Heq;
    try discriminate; [done|].
  apply Forall_cons in Hxs as [Hx Hxs]. apply Forall_cons in Hys as [Hy Hys].
  injection Hlen as Hlen.
  destruct xs as [|x2 xs], ys as [|y2 ys]; try discriminate.
  - simpl in Heq. apply append_inj_length in Heq as [-> _]; [done|congruence].
  - change (String.concat " " (x :: x2 :: xs))
      with (x +:+ " " +:+ String.concat " " (x2 :: xs)) in Heq.
    change (String.concat " " (y :: y2 :: ys))
      with (y +:+ " " +:+ String.concat " " (y2 :: ys)) in Heq.
    rewrite !append_assoc in Heq.
    apply append_inj_length in Heq as [-> Heq]; [|congruence].
    rewrite !append_cons, !append_nil_l in Heq. injection Heq as Heq.
    f_equal. apply IH; auto.
Qed.

Lemma length_concat_bloques (w : nat) xs :
  Forall (λ x, String.length x = w) xs →
  String.length (String.concat " " xs) = (length xs * w + (length xs - 1))%nat.
Proof.
  induction xs as [|x xs IH]; intros Hxs; [done|].
  apply Forall_cons in Hxs as [Hx Hxs]. specialize (IH Hxs).
  destruct xs as [|x2 xs].
  - simpl. lia.
  - change (String.concat " " (x :: x2 :: xs))
      with (x +:+ " " +:+ String.concat " " (x2 :: xs)).
    rewrite !length_append, IH, Hx. simpl. lia.
Qed.

End cadenas.

Lemma formatea_length (w : nat) (z : Z) :
  (String.length (pretty z) ≤ w)%nat →
  String.length (formatea w z) = S w.
Proof.
  intros H. unfold formatea.
  rewrite !length_append, length_espacios. simpl. lia.
Qed.

Lemma pieza_legal_ancho (z : Z) :
  pieza_legal z → String.length (pretty z) = 1%nat ∨ String.length (pretty z) = 2%nat.
Proof.
  unfold pieza_legal, PEON, TORRE, REY.
  intros [-> | [-> | [-> | [-> | [-> | [-> | ->]]]]]]; vm_compute; auto.
Qed.

Lemma formatea_inj (w : nat) (z1 z2 : Z) :
  w = 1%nat ∨ w = 2%nat → pieza_legal z1 → pieza_legal z2 →
  (String.length (pretty z1) ≤ w)%nat → (String.length (pretty z2) ≤ w)%nat →
  formatea w z1 = formatea w z2 → z1 = z2.
Proof.
  unfold pieza_legal, PEON, TORRE, REY.
  intros [-> | ->]
         [-> | [-> | [-> | [-> | [-> | [-> | ->]]]]]]
         [-> | [-> | [-> | [-> | [-> | [-> | ->]]]]]];
    vm_compute; intros H1 H2 H; first [reflexivity | discriminate H | lia].
Qed.

Lemma ancho_cota (l : list Z) (z : Z) :
  z ∈ l → (String.length (pretty z) ≤ ancho l)%nat.
Proof.
  intros Hz. unfold ancho. apply max_list_elem_of_le.
  apply list_elem_of_fmap. by exists z.
Qed.

Lemma ancho_legal (l : list Z) :
  Forall pieza_legal l → l ≠ [] → ancho l = 1%nat ∨ ancho l = 2%nat.
Proof.
  intros Hl Hne. unfold ancho.
  assert (map (λ z, String.length (pretty z)) l ≠ []) as Hne' by by destruct l.
  apply max_list_elem_of, list_elem_of_fmap in Hne' as (z & -> & Hz).
  apply pieza_legal_ancho. by apply (proj1 (Forall_forall _ _) Hl).
Qed.

Lemma map_formatea_inj (w : nat) (l1 : list Z) : ∀ l2 : list Z,
  w = 1%nat ∨ w = 2%nat →
  Forall pieza_legal l1 → Forall pieza_legal l2 →
  (∀ z, z ∈ l1 → (String.length (pretty z) ≤ w)%nat) →
  (∀ z, z ∈ l2 → (String.length (pretty z) ≤ w)%nat) →
  map (formatea w) l1 = map (formatea w) l2 → l1 = l2.
Proof.
  induction l1 as [|z1 l1 IH]; intros [|z2 l2] Hw H1 H2 Hc1 Hc2 Heq;
    try discriminate; [done|].
  apply Forall_cons in H1 as [Hz1 H1]. apply Forall_cons in H2 as [Hz2 H2].
  simpl in Heq. injection Heq as Hz Heq.
  f_equal.
  - apply (formatea_inj w); auto.
    + apply Hc1, list_elem_of_here.
    + apply Hc2, list_elem_of_here.
  - apply IH; auto.
    + intros z Hz'. by apply Hc1, list_elem_of_further.
    + intros z Hz'. by apply Hc2, list_elem_of_further.
Qed.

Lemma str_ndarray_inj (l1 l2 : list Z) :
  Forall pieza_legal l1 → Forall pieza_legal l2 →
  length l1 = length l2 → l1 ≠ [] →
  str_ndarray l1 = str_ndarray l2 → l1 = l2.
Proof.
  intros H1 H2 Hlen Hne1 Heq.
  assert (l2 ≠ []) as Hne2 by (destruct l1, l2; done).
  assert (∀ l, Forall (λ x, String.length x = S (ancho l)) (map (formatea (ancho l)) l))
    as Hbloques.
  { intros l. apply Forall_forall. intros x Hx.
    apply list_elem_of_fmap in Hx as (z & -> & Hz).
    by apply formatea_length, ancho_cota. }
  unfold str_ndarray in Heq.
  rewrite !append_cons, !append_nil_l in Heq. injection Heq as Heq.
  assert (ancho l1 = ancho l2) as Hw.
  { apply (f_equal String.length) in Heq.
    rewrite !length_append in Heq.
    rewrite (length_concat_bloques _ _ (Hbloques l1)) in Heq.
    rewrite (length_concat_bloques _ _ (Hbloques l2)) in Heq.
    rewrite !length_map, <- Hlen in Heq.
    assert (length l1 ≠ 0%nat) by by destruct l1.
    simpl in Heq. nia. }
  apply (concat_bloques_inj (S (ancho l1))) in Heq;
    [|apply Hbloques|rewrite Hw; apply Hbloques|by rewrite !length_map].
  rewrite <- Hw in Heq.
  apply (map_formatea_inj (ancho l1)); auto.
  - by apply ancho_legal.
  - intros z Hz. by apply ancho_cota.
  - intros z Hz. rewrite Hw. by apply ancho_cota.
Qed.

Lemma concat_filas_inj (n : nat) (t1 : tablero) : ∀ t2 : tablero,
  Forall (λ fila, length fila = n) t1 →
  Forall (λ fila, length fila = n) t2 →
  length t1 = length t2 →
  concat t1 = concat t2 → t1 = t2.
Proof.
  induction t1 as [|f1 t1 IH]; intros [|f2 t2] H1 H2 Hlen Heq;
    try discriminate; [done|].
  apply Forall_cons in H1 as [Hf1 H1]. apply Forall_cons in H2 as [Hf2 H2].
  simpl in Heq. apply app_inj_1 in Heq as [-> Heq]; [|congruence].
  injection Hlen as Hlen. f_equal. by apply IH.
Qed.

Lemma Forall_concat {A} (P : A → Prop) (ls : list (list A)) :
  Forall (Forall P) ls → Forall P (concat ls).
Proof.
  induction 1 as [|l ls Hl _ IH]; simpl; [constructor|].
  by apply Forall_app.
Qed.

(** C6. The serialization of a well-shaped board is always defined and is
    the rendering of its cells in row-major order, nothing else. The key
    the engine stores after a move is the same for two sessions that agree
    on the board, whatever their no-capture counters, sides to move and
    earlier keys. And two legal boards with the same key are the same
    board. *)
Theorem serializa_estado_inyectiva :
  (∀ t, forma t →
        _serializa_estado t N_FILAS N_COLS = Some (str_ndarray (concat t)))
  ∧ (∀ s1 s2 m s1' s2',
        _tablero s1 = _tablero s2 →
        _n_filas s1 = _n_filas s2 → _n_cols s1 = _n_cols s2 →
        __actualiza_estado s1 m = Some s1' →
        __actualiza_estado s2 m = Some s2' →
        _estado s1' = _estado s2')
  ∧ (∀ t1 t2, tablero_legal t1 → tablero_legal t2 →
        _serializa_estado t1 N_FILAS N_COLS = _serializa_estado t2 N_FILAS N_COLS →
        t1 = t2).
Proof.
  split; [exact serializa_forma|]. split.
  { intros s1 s2 [o d] s1' s2' Ht Hnf Hnc H1 H2.
    unfold __actualiza_estado in H1, H2. rewrite <- Ht, <- Hnf, <- Hnc in H2.
    destruct (leer (_tablero s1) o) as [pieza|]; cbn in H1, H2; [|done].
    destruct (leer (_tablero s1) d) as [capturada|]; cbn in H1, H2; [|done].
    destruct (escribir (_tablero s1) d pieza) as [t1|]; cbn in H1, H2; [|done].
    destruct (escribir t1 o 0) as [t2|]; cbn in H1, H2; [|done].
    destruct (_serializa_estado t2 (_n_filas s1) (_n_cols s1));
      cbn in H1, H2; [|done].
    injection H1 as <-. injection H2 as <-. done. }
  intros t1 t2 [Hf1 Hl1] [Hf2 Hl2] Heq.
  rewrite (serializa_forma t1 Hf1), (serializa_forma t2 Hf2) in Heq.
  apply (inj Some) in Heq.
  apply str_ndarray_inj in Heq.
  - destruct Hf1 as [Hn1 Hc1], Hf2 as [Hn2 Hc2].
    apply (concat_filas_inj _ _ _ Hc1 Hc2); congruence.
  - by apply Forall_concat.
  - by apply Forall_concat.
  - by rewrite (forma_concat t1), (forma_concat t2).
  - intros E. apply (f_equal length) in E.
    by rewrite (forma_concat t1) in E.
Qed.

(** ** The agent's view of the board *)

Section almacen_lemas.
Context (experiencia : gmap string Q).
Implicit Types (h : almacen) (tab : ref) (t : tablero) (m : mov).

Lemma fresco_libre h : h !! fresh (dom h) = None.
Proof. apply not_elem_of_dom, is_fresh. Qed.

(** One simulation allocates one array, the copy, and writes to it only. *)
Lemma evalua_movimiento_puro h tab t m :
  h !! tab = Some t →
  evalua_movimiento experiencia h tab m
  = (t' ← simula t m;
     hash ← _serializa_estado t' N_FILAS N_COLS;
     Some (default 0%Q (experiencia !! hash), <[fresh (dom h) := t']> h)).
Proof.
  intros Ht. destruct m as [origen destino].
  unfold evalua_movimiento, copia, lee, escribe, serializa_ref, simula.
  rewrite Ht. cbn. rewrite lookup_insert_eq. cbn.
  destruct (leer t origen) as [pieza|]; cbn; [|done].
  destruct (escribir t destino pieza) as [t1|]; cbn; [|done].
  rewrite insert_insert_eq, lookup_insert_eq. cbn.
  destruct (escribir t1 origen 0) as [t2|]; cbn; [|done].
  rewrite insert_insert_eq, lookup_insert_eq. cbn.
  done.
Qed.

Lemma evalua_movimiento_marco h tab m v h' :
  evalua_movimiento experiencia h tab m = Some (v, h') →
  ∀ a, is_Some (h !! a) → h' !! a = h !! a.
Proof.
  intros He a [ta Ha].
  destruct (h !! tab) as [t|] eqn:Ht.
  - rewrite (evalua_movimiento_puro h tab t m Ht) in He.
    destruct (simula t m) as [t'|]; cbn in He; [|done].
    destruct (_serializa_estado t' N_FILAS N_COLS); cbn in He; [|done].
    injection He as _ <-. apply lookup_insert_ne.
    intros E. pose proof (fresco_libre h) as Hn. congruence.
  - unfold evalua_movimiento, copia in He. destruct m. rewrite Ht in He. done.
Qed.

Lemma explota_marco tab (movs : list mov) : ∀ valor_max mejores h v ms h',
  explota experiencia tab movs valor_max mejores h = Some (v, ms, h') →
  ∀ a, is_Some (h !! a) → h' !! a = h !! a.
Proof.
  induction movs as [|m movs IH]; intros valor_max mejores h v ms h' He a Ha.
  - by injection He as _ _ <-.
  - cbn [explota] in He.
    destruct (evalua_movimiento experiencia h tab m) as [[v1 h1]|] eqn:Hev;
      cbn in He; [|done].
    pose proof (evalua_movimiento_marco _ _ _ _ _ Hev a Ha) as H1.
    assert (is_Some (h1 !! a)) as Ha1 by by rewrite H1.
    rewrite <- H1.
    destruct (mayor v1 valor_max); [by eapply IH|].
    destruct (igual v1 valor_max); by eapply IH.
Qed.

End almacen_lemas.

(** ** Instances of the generator and serialization theorems *)

Lemma legal_inicial : tablero_legal inicializar_tablero.
Proof.
  split; [split; [reflexivity | repeat constructor]|].
  repeat (apply Forall_cons; split); try apply Forall_nil;
    unfold pieza_legal, PEON, TORRE, REY; auto 10.
Defined.

Lemma movimientos_peon_exactos_ejemplo :
  ∃ l, __movimientos_peon inicializar_tablero (1, 0) 1 = Some l
    ∧ ∀ m : mov, m ∈ l ↔
        m.1 = (1, 0) ∧ en_tablero m.2 ∧ (m.2).1 = 1 + 1
        ∧ (((m.2).2 = 0 ∧ celda inicializar_tablero m.2 = 0)
           ∨ (((m.2).2 = 0 - 1 ∨ (m.2).2 = 0 + 1)
              ∧ celda inicializar_tablero m.2 * 1 < 0)).
Proof.
  apply (movimientos_peon_exactos inicializar_tablero 1 0 1).
  - split; [reflexivity | repeat constructor].
  - unfold en_tablero, N_FILAS, N_COLS; simpl; lia.
  - left; reflexivity.
Defined.

Lemma movimientos_torre_rayos_ejemplo :
  ∃ l, __movimientos_torre tablero_sin_reyes (3, 3) (-1) = Some l
    ∧ ((3, 3), (3, 0)) ∈ l
    ∧ ((3, 3), (2, 3)) ∉ l.
Proof.
  destruct (movimientos_torre_rayos tablero_sin_reyes 3 3 (-1)) as (l & Hl & Hm).
  - split; [reflexivity | repeat constructor].
  - unfold en_tablero, N_FILAS, N_COLS; simpl; lia.
  - exists l. split; [exact Hl|]. split.
    + apply Hm. simpl. split; [reflexivity|].
      split; [unfold en_tablero, N_FILAS, N_COLS; simpl; lia|].
      split; [left; reflexivity|].
      exists 0, (-1), 3. split; [right; right; left; reflexivity|].
      split; [lia|]. split; [reflexivity|].
      intros k' Hk'. assert (k' = 1 ∨ k' = 2) as [-> | ->] by lia; reflexivity.
    + intros Hin. apply Hm in Hin as (_ & _ & [Hc | Hc] & _).
      * vm_compute in Hc. discriminate Hc.
      * vm_compute in Hc. discriminate Hc.
Defined.

Lemma serializa_estado_inyectiva_ejemplo :
  tablero_legal inicializar_tablero
  ∧ _serializa_estado inicializar_tablero N_FILAS N_COLS
    = Some "[ 5.  6.  0.  0.  1.  0.  0.  0.  0.  0.  0. -1.  0.  0. -6. -5.]"
  ∧ inicializar_tablero = inicializar_tablero.
Proof.
  split; [exact legal_inicial|]. split; [reflexivity|].
  apply (proj2 (proj2 serializa_estado_inyectiva)
           inicializar_tablero inicializar_tablero legal_inicial legal_inicial).
  reflexivity.
Defined.

(** ** Action selection *)

Lemma simula_forma (t : tablero) (m : mov) :
  forma t → mov_en_tablero m → ∃ t', simula t m = Some t' ∧ forma t'.
Proof.
  intros Hf [Ho Hd]. unfold simula.
  rewrite (leer_celda t _ Hf Ho). cbn.
  destruct (escribir_is_Some t m.2 (celda t m.1) Hf Hd) as [t1 Ht1].
  pose proof (escribir_forma _ _ _ _ Hf Hd Ht1) as Hf1.
  destruct (escribir_is_Some t1 m.1 0 Hf1 Ho) as [t2 Ht2].
  rewrite Ht1. cbn. rewrite Ht2. exists t2. split; [done|].
  by apply (escribir_forma _ _ _ _ Hf1 Ho Ht2).
Qed.

Lemma valor_sucesor_is_Some (experiencia : gmap string Q) (t : tablero) (m : mov) :
  forma t → mov_en_tablero m → is_Some (valor_sucesor experiencia t m).
Proof.
  intros Hf Hm. unfold valor_sucesor.
  destruct (simula_forma t m Hf Hm) as (t' & -> & Hf'). cbn.
  rewrite (serializa_forma t' Hf'). cbn. eauto.
Qed.

Lemma random_choice_lookup {A} (r : nat) (l : list A) :
  l ≠ [] → ∃ k x, random_choice r (length l) = Some k ∧ l !! k = Some x.
Proof.
  intros Hne. unfold random_choice.
  assert (length l ≠ 0%nat) as Hn by by destruct l.
  rewrite decide_False by done.
  destruct (lookup_lt_is_Some_2 l (r mod length l)) as [x Hx].
  { by apply Nat.mod_upper_bound. }
  eauto.
Qed.

Section explota_lemas.
Context (experiencia : gmap string Q) (tab : ref) (t : tablero).
Hypothesis Hforma : forma t.

(** The loop runs to its end on moves of the board, keeps the board
    passed to it, selects among the moves it was given, and holds a
    non-empty selection as soon as its maximum is a number. *)
Lemma explota_total (movs : list mov) : ∀ valor_max mejores (h : almacen),
  h !! tab = Some t → Forall mov_en_tablero movs →
  ∃ v ms h',
    explota experiencia tab movs valor_max mejores h = Some (v, ms, h')
    ∧ h' !! tab = Some t
    ∧ (∀ m, m ∈ ms → m ∈ mejores ∨ m ∈ movs)
    ∧ ((valor_max ≠ MenosInf → mejores ≠ []) → v ≠ MenosInf → ms ≠ [])
    ∧ (valor_max ≠ MenosInf ∨ movs ≠ [] → v ≠ MenosInf).
Proof.
  induction movs as [|m movs IH]; intros valor_max mejores h Ht Hmovs.
  - exists valor_max, mejores, h. cbn. split_and!; auto. tauto.
  - apply Forall_cons in Hmovs as [Hm Hmovs]. cbn [explota].
    rewrite (evalua_movimiento_puro experiencia h tab t m Ht).
    destruct (simula_forma t m Hforma Hm) as (t' & -> & Hf'). cbn.
    rewrite (serializa_forma t' Hf'). cbn.
    set (v1 := default 0%Q (experiencia !! str_ndarray (concat t'))).
    set (h1 := <[fresh (dom h) := t']> h).
    assert (h1 !! tab = Some t) as Ht1.
    { unfold h1. rewrite lookup_insert_ne; [done|].
      intros E. pose proof (fresco_libre h) as Hn. congruence. }
    destruct (mayor v1 valor_max) eqn:Hmay.
    + destruct (IH (Num v1) [m] h1 Ht1 Hmovs)
        as (v & ms & h' & -> & Hh' & Hsub & Hinv & Hnum).
      exists v, ms, h'. split_and!; [done|done|..].
      * intros x Hx. destruct (Hsub x Hx) as [Hin|Hin].
        -- apply list_elem_of_singleton in Hin as ->. right. apply list_elem_of_here.
        -- right. by apply list_elem_of_further.
      * intros _. by apply Hinv.
      * intros _. apply Hnum. by left.
    + assert (valor_max ≠ MenosInf) as Hvm by (by destruct valor_max).
      destruct (igual v1 valor_max) eqn:Hig.
      * destruct (IH valor_max (mejores ++ [m]) h1 Ht1 Hmovs)
          as (v & ms & h' & -> & Hh' & Hsub & Hinv & Hnum).
        exists v, ms, h'. split_and!; [done|done|..].
        -- intros x Hx. destruct (Hsub x Hx) as [Hin|Hin].
           ++ apply elem_of_app in Hin as [Hin|Hin]; [by left|].
              apply list_elem_of_singleton in Hin as ->. right. apply list_elem_of_here.
           ++ right. by apply list_elem_of_further.
        -- intros _. apply Hinv. intros _. by destruct mejores.
        -- intros _. apply Hnum. by left.
      * destruct (IH valor_max mejores h1 Ht1 Hmovs)
          as (v & ms & h' & -> & Hh' & Hsub & Hinv & Hnum).
        exists v, ms, h'. split_and!; [done|done|..].
        -- intros x Hx. destruct (Hsub x Hx) as [Hin|Hin]; [by left|].
           right. by apply list_elem_of_further.
        -- exact Hinv.
        -- intros _. apply Hnum. by left.
Qed.

End explota_lemas.

(** The facts shared by the frame and the safety properties of
    [decide_accion]. *)
Lemma decide_accion_bien_formado (self : JugadorMiniChessMaq) (u : Q) (r : nat)
    (movs : list mov) (tab : ref) (token : Z) (h : almacen) (t : tablero) :
  forma t → h !! tab = Some t → Forall mov_en_tablero movs → movs ≠ [] →
  ∃ m h', decide_accion self u r movs tab token h = Some (m, h')
    ∧ m ∈ movs ∧ h' !! tab = Some t.
Proof.
  intros Hf Ht Hmovs Hne. unfold decide_accion.
  destruct (Qle_bool u (_tasa_exploracion self)).
  - destruct (random_choice_lookup r movs Hne) as (k & m & -> & Hm). cbn.
    rewrite Hm. cbn. exists m, h. split_and!; auto.
    apply list_elem_of_lookup. eauto.
  - destruct (explota_total (_experiencia_estado_valor self) tab t Hf movs
                MenosInf [] h Ht Hmovs)
      as (v & ms & h' & -> & Hh' & Hsub & Hinv & Hnum).
    cbn. assert (ms ≠ []) as Hms.
    { apply Hinv; [done|]. apply Hnum. by right. }
    destruct (random_choice_lookup r ms Hms) as (k & m & -> & Hm). cbn.
    rewrite Hm. cbn. exists m, h'. split_and!; auto.
    destruct (Hsub m) as [Hin|Hin]; auto.
    + apply list_elem_of_lookup. eauto.
    + by apply elem_of_nil in Hin.
Qed.

Lemma decide_accion_marco (self : JugadorMiniChessMaq) (u : Q) (r : nat)
    (movs : list mov) (tab : ref) (token : Z) (h h' : almacen) (m : mov) :
  decide_accion self u r movs tab token h = Some (m, h') →
  ∀ a, is_Some (h !! a) → h' !! a = h !! a.
Proof.
  unfold decide_accion. intros Hd a Ha.
  destruct (Qle_bool u (_tasa_exploracion self)).
  - destruct (random_choice r (length movs)) as [k|]; cbn in Hd; [|done].
    destruct (movs !! k); cbn in Hd; [|done]. by injection Hd as _ <-.
  - destruct (explota (_experiencia_estado_valor self) tab movs MenosInf [] h)
      as [[[v ms] h1]|] eqn:He; cbn in Hd; [|done].
    destruct (random_choice r (length ms)) as [k|]; cbn in Hd; [|done].
    destruct (ms !! k); cbn in Hd; [|done]. injection Hd as _ <-.
    by apply (explota_marco _ _ _ _ _ _ _ _ _ He).
Qed.

(** C9. A call of [decide_accion] leaves every array of the store as it
    was, the board passed to it among them: whatever the inputs, if the
    call returns, the arrays that existed before it hold the same cells
    after it (the successor boards live in arrays of their own, allocated
    by [copy]). And on a well-shaped board with a non-empty list of
    on-board moves the call does return. *)
Theorem decide_accion_no_muta (self : JugadorMiniChessMaq) (u : Q) (r : nat)
    (movs : list mov) (tab : ref) (token : Z) (h : almacen) (t : tablero) :
  h !! tab = Some t →
  (∀ m h', decide_accion self u r movs tab token h = Some (m, h') →
           h' !! tab = Some t ∧ ∀ a, is_Some (h !! a) → h' !! a = h !! a)
  ∧ (forma t → Forall mov_en_tablero movs → movs ≠ [] →
     is_Some (decide_accion self u r movs tab token h)).
Proof.
  intros Ht. split.
  - intros m h' Hd.
    pose proof (decide_accion_marco _ _ _ _ _ _ _ _ _ Hd) as Hmarco.
    split; [|done]. rewrite Hmarco; eauto.
  - intros Hf Hmovs Hne.
    destruct (decide_accion_bien_formado self u r movs tab token h t)
      as (m & h' & -> & _); eauto.
Qed.

(** C10. On a well-shaped board, for every non-empty list of moves that
    is the list of legal moves of a side, or more generally a list of
    on-board moves, [decide_accion] returns a move of the list, in the
    exploration branch as in the exploitation branch, whatever the random
    draws: the drawn index is in range and the list of maximizers is not
    empty, since the first value looked up beats the [-inf] sentinel. *)
Theorem decide_accion_devuelve_movimiento (self : JugadorMiniChessMaq) (u : Q)
    (r : nat) (movs : list mov) (tab : ref) (token : Z) (h : almacen)
    (t : tablero) :
  forma t → h !! tab = Some t → movs ≠ [] →
  (Forall mov_en_tablero movs
   ∨ ∃ jugador, __calcular_movimientos_validos t jugador = Some movs) →
  ∃ m h', decide_accion self u r movs tab token h = Some (m, h') ∧ m ∈ movs.
Proof.
  intros Hf Ht Hne Hmovs.
  assert (Forall mov_en_tablero movs) as Hen.
  { destruct Hmovs as [H | [jugador H]]; [done|].
    by apply (movimientos_validos_en_tablero t jugador). }
  destruct (decide_accion_bien_formado self u r movs tab token h t)
    as (m & h' & Hd & Hin & _); eauto.
Qed.

(** *** The exploitation branch selects the maximizers *)

Section seleccion_lemas.
Context (experiencia : gmap string Q) (tab : ref) (t : tablero).
Hypothesis Hforma : forma t.

Local Abbreviation val := (val_mov experiencia t).

Lemma filter_ninguno (q : Q) (l : list mov) :
  Forall (λ m, Qeq_bool (val m) q = false) l →
  List.filter (λ m, Qeq_bool (val m) q) l = [].
Proof.
  induction 1 as [|m l Hm _ IH]; simpl; [done|]. by rewrite Hm.
Qed.

Lemma seleccion_paso (vistos : list mov) (valor_max : valor)
    (mejores : list mov) (m : mov) :
  seleccion experiencia t vistos valor_max mejores →
  seleccion experiencia t (vistos ++ [m])
    (if mayor (val m) valor_max then Num (val m) else valor_max)
    (if mayor (val m) valor_max then [m]
     else if igual (val m) valor_max then mejores ++ [m] else mejores).
Proof.
  destruct valor_max as [|q]; simpl.
  - intros [-> ->]. simpl. split_and!.
    + repeat constructor. apply Qle_refl.
    + constructor. reflexivity.
    + by rewrite (proj2 (Qeq_bool_iff _ _) (Qeq_refl _)).
  - intros (Hle & Hex & ->).
    destruct (Qle_bool (val m) q) eqn:Hmq; simpl.
    + apply Qle_bool_iff in Hmq.
      destruct (Qeq_bool (val m) q) eqn:Heq; simpl.
      * split_and!.
        -- apply Forall_app. split; [done|]. by repeat constructor.
        -- apply Exists_app. by left.
        -- by rewrite List.filter_app; simpl; rewrite Heq.
      * split_and!.
        -- apply Forall_app. split; [done|]. by repeat constructor.
        -- apply Exists_app. by left.
        -- rewrite List.filter_app; simpl; rewrite Heq. by rewrite app_nil_r.
    + assert (q < val m)%Q as Hlt.
      { apply Qnot_le_lt. intros H. apply Qle_bool_iff in H. congruence. }
      split_and!.
      * apply Forall_app. split.
        -- eapply Forall_impl; [exact Hle|]. intros x Hx. simpl in Hx.
           eapply Qle_trans; [exact Hx|]. by apply Qlt_le_weak.
        -- repeat constructor. apply Qle_refl.
      * apply Exists_app. right. constructor. reflexivity.
      * rewrite List.filter_app. simpl.
        rewrite (proj2 (Qeq_bool_iff _ _) (Qeq_refl _)).
        rewrite filter_ninguno; [done|].
        eapply Forall_impl; [exact Hle|]. intros x Hx. simpl in Hx.
        destruct (Qeq_bool (val x) (val m)) eqn:E; [|done].
        apply Qeq_bool_iff in E. rewrite E in Hx.
        exfalso. by apply (Qlt_not_le _ _ Hlt).
Qed.

Lemma explota_seleccion (movs : list mov) :
  ∀ vistos valor_max mejores (h : almacen),
  h !! tab = Some t → Forall mov_en_tablero movs →
  seleccion experiencia t vistos valor_max mejores →
  ∃ v ms h',
    explota experiencia tab movs valor_max mejores h = Some (v, ms, h')
    ∧ seleccion experiencia t (vistos ++ movs) v ms.
Proof.
  induction movs as [|m movs IH]; intros vistos valor_max mejores h Ht Hmovs Hsel.
  - exists valor_max, mejores, h. by rewrite app_nil_r.
  - apply Forall_cons in Hmovs as [Hm Hmovs]. cbn [explota].
    rewrite (evalua_movimiento_puro experiencia h tab t m Ht).
    pose proof (seleccion_paso vistos valor_max mejores m Hsel) as Hpaso.
    destruct (simula_forma t m Hforma Hm) as (t' & Hsim & Hf').
    assert (val_mov experiencia t m
            = default 0%Q (experiencia !! str_ndarray (concat t'))) as Hval.
    { unfold val_mov, valor_sucesor. rewrite Hsim. cbn.
      by rewrite (serializa_forma t' Hf'). }
    rewrite Hval in Hpaso. rewrite Hsim. cbn.
    rewrite (serializa_forma t' Hf'). cbn.
    set (v1 := default 0%Q (experiencia !! str_ndarray (concat t'))) in *.
    set (h1 := <[fresh (dom h) := t']> h).
    assert (h1 !! tab = Some t) as Ht1.
    { unfold h1. rewrite lookup_insert_ne; [done|].
      intros E. pose proof (fresco_libre h) as Hn. congruence. }
    replace (vistos ++ m :: movs) with ((vistos ++ [m]) ++ movs)
      by by rewrite <- app_assoc.
    destruct (mayor v1 valor_max); [by apply IH|].
    destruct (igual v1 valor_max); by apply IH.
Qed.

End seleccion_lemas.

(** The two branches of [decide_accion]: at [u <= epsilon] the move at the
    drawn index of the whole list; above, the move at the drawn index of
    the list of the moves whose successor has the greatest value. *)
Lemma decide_accion_ramas (self : JugadorMiniChessMaq) (u : Q) (r : nat)
    (movs : list mov) (tab : ref) (token : Z) (h : almacen) (t : tablero) :
  forma t → h !! tab = Some t → Forall mov_en_tablero movs → movs ≠ [] →
  ((u <= _tasa_exploracion self)%Q →
   ∃ m, decide_accion self u r movs tab token h = Some (m, h)
     ∧ movs !! (r mod length movs)%nat = Some m)
  ∧ (¬ (u <= _tasa_exploracion self)%Q →
     ∃ q ms m h',
       decide_accion self u r movs tab token h = Some (m, h')
       ∧ seleccion (_experiencia_estado_valor self) t movs (Num q) ms
       ∧ ms !! (r mod length ms)%nat = Some m).
Proof.
  intros Hf Ht Hmovs Hne. unfold decide_accion. split.
  - intros Hu. apply Qle_bool_iff in Hu. rewrite Hu.
    destruct (random_choice_lookup r movs Hne) as (k & m & Hk & Hm).
    rewrite Hk. cbn. rewrite Hm. cbn. exists m. split; [done|].
    unfold random_choice in Hk. case_decide; [done|]. by injection Hk as <-.
  - intros Hu.
    destruct (Qle_bool u (_tasa_exploracion self)) eqn:E.
    { apply Qle_bool_iff in E. done. }
    destruct (explota_seleccion (_experiencia_estado_valor self) tab t Hf movs
                [] MenosInf [] h Ht Hmovs) as (v & ms & h' & -> & Hsel); [done|].
    simpl in Hsel. cbn.
    destruct v as [|q]; [by destruct Hsel as [-> _]|].
    assert (ms ≠ []) as Hms.
    { destruct Hsel as (_ & Hex & ->). intros Hnil.
      apply Exists_exists in Hex as (x & Hx & Hq).
      apply Qeq_bool_iff in Hq.
      assert (x ∈ List.filter (λ m, Qeq_bool
                (val_mov (_experiencia_estado_valor self) t m) q) movs) as Hin.
      { apply list_elem_of_In, List.filter_In. split; [|done].
        by apply list_elem_of_In. }
      rewrite Hnil in Hin. by apply elem_of_nil in Hin. }
    destruct (random_choice_lookup r ms Hms) as (k & m & Hk & Hm).
    rewrite Hk. cbn. rewrite Hm. cbn. exists q, ms, m, h'.
    split; [done|]. split; [exact Hsel|].
    unfold random_choice in Hk. case_decide; [done|]. by injection Hk as <-.
Qed.

(** C3 at its failing input. With [tasa_exploracion = 0.0] and the draw
    [u = 0.0], which [np.random.uniform(0, 1)] can return, the test
    [u <= tasa_exploracion] holds and the agent explores: it returns the
    move at the drawn index of the whole list, here a move whose successor
    is worth 0 while another legal move has a successor worth 1. With any
    draw above 0 the same agent returns the maximizer. *)
Theorem decide_accion_epsilon_cero_explora :
  __calcular_movimientos_validos inicializar_tablero 1 = Some movimientos_iniciales
  ∧ _tasa_exploracion jugador_codicioso = 0%Q
  ∧ decide_accion jugador_codicioso 0 1 movimientos_iniciales 1%positive 1
      almacen_inicial
    = Some (((0, 1), (1, 1)), almacen_inicial)
  ∧ valor_sucesor (_experiencia_estado_valor jugador_codicioso)
      inicializar_tablero ((0, 1), (1, 1)) = Some 0%Q
  ∧ valor_sucesor (_experiencia_estado_valor jugador_codicioso)
      inicializar_tablero ((0, 1), (0, 2)) = Some 1%Q
  ∧ fst <$> decide_accion jugador_codicioso (1 # 2) 1 movimientos_iniciales
              1%positive 1 almacen_inicial
    = Some ((0, 1), (0, 2)).
Proof. split_and!; reflexivity. Qed.

(** ** Reward propagation *)

Section retro.
Context (alpha gamma : Q).

(** The loop over indices is the propagation over the states they
    designate. *)
Lemma retro_bucle_estados (estados : list string) (indices : list nat) :
  ∀ (tabla : gmap string Q) (r : Q),
  retro_bucle alpha gamma estados indices tabla r
  = (ss ← mapM (λ i, estados !! i) indices;
     Some (propaga_spec alpha gamma ss tabla r)).
Proof.
  induction indices as [|i indices IH]; intros tabla r; [done|].
  cbn [retro_bucle mapM]. destruct (estados !! i) as [s|]; cbn; [|done].
  rewrite IH. by destruct (mapM _ indices).
Qed.

(** [reversed(range(len(l)))] designates the states of [l] from the last
    to the first. *)
Lemma indices_invertidos (l : list string) :
  mapM (λ i, l !! i) (reverse (seq 0 (length l))) = Some (reverse l).
Proof.
  induction l as [|s l IH] using rev_ind; [done|].
  rewrite length_app, Nat.add_comm. cbn [length plus].
  rewrite seq_S, !reverse_app. cbn [reverse app mapM]. simpl.
  rewrite lookup_app_r, Nat.sub_diag by done. cbn.
  rewrite (Forall_mapM_ext _ (λ i, l !! i)).
  - by rewrite IH.
  - apply Forall_forall. intros i Hi.
    apply elem_of_reverse, list_elem_of_In, in_seq in Hi.
    apply lookup_app_l. lia.
Qed.

End retro.

(** C2. [retropropaga_recompensa] always returns, changes the value table
    only, and the table it leaves is the one obtained by going through the
    trace from the most recent state to the earliest with a running target
    that starts at the final reward: the state's value, 0 when it has
    none, moves toward the target by the fraction alpha, the new value is
    stored, and the target of the next (earlier) state is the new value
    times gamma. For the default agent (alpha 0.2, gamma 0.9), a trace of
    three distinct states, an empty table and the reward 1, the stored
    values are those of this iteration: 1/5 for the last state, 9/250 for
    the one before, 81/12500 for the first. *)
Theorem retropropaga_recompensa_iteracion :
  (∀ (self : JugadorMiniChessMaq) (recompensa_final : Q),
     retropropaga_recompensa self recompensa_final
     = Some (con_experiencia
               (propaga_spec (_tasa_aprendizaje self) (_descuento_gamma self)
                  (reverse (_estados_juego_actual self))
                  (_experiencia_estado_valor self) recompensa_final)
               self))
  ∧ (∀ (nombre s1 s2 s3 : string),
       s1 ≠ s2 → s1 ≠ s3 → s2 ≠ s3 →
       let alpha := (2 # 10)%Q in
       let gamma := (9 # 10)%Q in
       let v3 := (0 + alpha * (1 - 0))%Q in
       let v2 := (0 + alpha * (v3 * gamma - 0))%Q in
       let v1 := (0 + alpha * (v2 * gamma - 0))%Q in
       ∃ self',
         retropropaga_recompensa
           (con_estados [s1; s2; s3] (JugadorMiniChessMaq_por_defecto nombre)) 1
         = Some self'
         ∧ _experiencia_estado_valor self'
           = <[s1 := v1]> (<[s2 := v2]> (<[s3 := v3]> ∅))
         ∧ _estados_juego_actual self' = [s1; s2; s3]
         ∧ (v3 == 1 # 5)%Q ∧ (v2 == 9 # 250)%Q ∧ (v1 == 81 # 12500)%Q).
Proof.
  split.
  - intros self r. unfold retropropaga_recompensa.
    rewrite retro_bucle_estados, indices_invertidos. done.
  - intros nombre s1 s2 s3 H12 H13 H23 alpha gamma v3 v2 v1.
    eexists. split.
    { unfold retropropaga_recompensa.
      rewrite retro_bucle_estados, indices_invertidos. reflexivity. }
    split; [|split; [reflexivity|]].
    + cbn -[Qplus Qmult Qminus].
      repeat (rewrite lookup_insert_ne by done).
      rewrite !lookup_empty. reflexivity.
    + split_and!; reflexivity.
Qed.

(** ** Instances of the agent theorems *)

Lemma decide_accion_no_muta_ejemplo :
  ∃ m h',
    decide_accion jugador_codicioso (1 # 2) 1 movimientos_iniciales 1%positive 1
      almacen_inicial = Some (m, h')
    ∧ h' !! 1%positive = Some inicializar_tablero.
Proof.
  exists ((0, 1), (0, 2)). eexists. split; [reflexivity|].
  refine (proj1 (proj1 (decide_accion_no_muta jugador_codicioso (1 # 2) 1
                          movimientos_iniciales 1%positive 1 almacen_inicial
                          inicializar_tablero eq_refl) ((0, 1), (0, 2)) _ _)).
  reflexivity.
Defined.

Lemma decide_accion_devuelve_movimiento_ejemplo :
  ∃ m h',
    decide_accion jugador_codicioso (1 # 2) 1 movimientos_iniciales 1%positive 1
      almacen_inicial = Some (m, h')
    ∧ m ∈ movimientos_iniciales.
Proof.
  apply (decide_accion_devuelve_movimiento jugador_codicioso (1 # 2) 1
           movimientos_iniciales 1%positive 1 almacen_inicial inicializar_tablero).
  - split; [reflexivity | repeat constructor].
  - reflexivity.
  - discriminate.
  - right. exists 1. reflexivity.
Defined.

Lemma retropropaga_recompensa_iteracion_ejemplo :
  ∃ self',
    retropropaga_recompensa
      (con_estados ["a"; "b"; "c"] (JugadorMiniChessMaq_por_defecto "maq")) 1
    = Some self'
    ∧ _estados_juego_actual self' = ["a"; "b"; "c"].
Proof.
  destruct (proj2 retropropaga_recompensa_iteracion "maq" "a" "b" "c")
    as (self' & Hr & _ & He & _); [discriminate..|].
  exists self'. split; [exact Hr | exact He].
Defined.

(** ** Sample runs *)

Example movimientos_iniciales_j1 :
  __calcular_movimientos_validos inicializar_tablero 1
  = Some [ ((0,1),(0,2)); ((0,1),(1,1)); ((0,1),(1,2)); ((1,0),(2,0)) ].
Proof. reflexivity. Qed.

Example movimientos_iniciales_j2 :
  __calcular_movimientos_validos inicializar_tablero (-1)
  = Some [ ((2,3),(1,3)); ((3,2),(2,1)); ((3,2),(2,2)); ((3,2),(3,1)) ].
Proof. reflexivity. Qed.

Example calcula_ganador_inicial :
  fst <$> __calcula_ganador JuegoMiniChess_init = Some None.
Proof. reflexivity. Qed.

Example calcula_ganador_empate :
  fst <$> __calcula_ganador (con_turnos 50 JuegoMiniChess_init) = Some (Some 0).
Proof. reflexivity. Qed.

Example retropropaga_tres_estados :
  (λ self', _experiencia_estado_valor self' !! "c") <$>
    retropropaga_recompensa
      (con_estados ["a"; "b"; "c"] (JugadorMiniChessMaq_por_defecto "maq")) 1
  = Some (Some (0 + (2 # 10) * (1 - 0))%Q).
Proof. reflexivity. Qed.

(** * Further properties of the engine and of the agent *)

(** ** King steps *)

Lemma elem_of_concat {A} (x : A) (ls : list (list A)) :
  x ∈ concat ls ↔ ∃ l, x ∈ l ∧ l ∈ ls.
Proof.
  rewrite list_elem_of_In, in_concat. split.
  - intros (l & Hl & Hx). exists l. by rewrite !list_elem_of_In.
  - intros (l & Hx & Hl). exists l. by rewrite <- !list_elem_of_In.
Qed.

Lemma direcciones_rey_spec (di dj : Z) :
  (di, dj) ∈ direcciones_rey
  ↔ -1 ≤ di ≤ 1 ∧ -1 ≤ dj ≤ 1 ∧ (di, dj) ≠ (0, 0).
Proof.
  unfold direcciones_rey. split.
  - intros H.
    repeat (apply elem_of_cons in H as [E|H];
            [injection E as -> ->; split_and!; (lia || discriminate)|]).
    by apply elem_of_nil in H.
  - intros (Hi & Hj & Hne).
    assert (di = -1 ∨ di = 0 ∨ di = 1) as Ei by lia.
    assert (dj = -1 ∨ dj = 0 ∨ dj = 1) as Ej by lia.
    destruct Ei as [-> | [-> | ->]], Ej as [-> | [-> | ->]];
      try done;
      repeat first [apply list_elem_of_here | apply list_elem_of_further].
Qed.

Lemma movimientos_rey_forma (t : tablero) (i j jugador : Z) :
  forma t →
  __movimientos_rey t (i, j) jugador
  = Some (concat ((λ d : Z * Z,
                     if decide (en_tablero (i + d.1, j + d.2)
                                ∧ (celda t (i + d.1, j + d.2) = 0
                                   ∨ celda t (i + d.1, j + d.2) * jugador < 0))
                     then [((i, j), (i + d.1, j + d.2))] else [])
                  <$> direcciones_rey)).
Proof.
  intros Hf. unfold __movimientos_rey.
  erewrite mapM_total; [reflexivity|].
  apply Forall_forall. intros [di dj] _. simpl.
  destruct (en_rango N_FILAS (i + di) && en_rango N_COLS (j + dj)) eqn:Hr.
  - apply andb_true_iff in Hr as [Hi Hj]. apply en_rango_true in Hi, Hj.
    assert (en_tablero (i + di, j + dj)) as Hp by done.
    rewrite (leer_celda t _ Hf Hp). cbn. f_equal.
    repeat case_decide; tauto.
  - rewrite decide_False; [done|]. intros [[Hi Hj] _]. simpl in Hi, Hj.
    apply andb_false_iff in Hr as [Hr|Hr]; apply en_rango_false in Hr; done.
Qed.

(** X1. On a well-shaped board, the moves generated for a king standing
    on [(i, j)] are exactly the on-board cells at most one row and one
    column away, other than its own, that are empty or hold a piece of
    the other side. *)
Theorem movimientos_rey_exactos (t : tablero) (i j jugador : Z) :
  forma t →
  ∃ l, __movimientos_rey t (i, j) jugador = Some l
    ∧ ∀ m : mov, m ∈ l ↔
        m.1 = (i, j) ∧ en_tablero m.2 ∧ m.2 ≠ (i, j)
        ∧ -1 ≤ (m.2).1 - i ≤ 1 ∧ -1 ≤ (m.2).2 - j ≤ 1
        ∧ (celda t m.2 = 0 ∨ celda t m.2 * jugador < 0).
Proof.
  intros Hf. eexists. split; [by apply movimientos_rey_forma|].
  intros [o [a b]]. cbn [fst snd]. rewrite elem_of_concat. split.
  - intros (paso & Hm & Hpaso).
    apply list_elem_of_fmap in Hpaso as ([di dj] & -> & Hdir).
    simpl in Hm. apply elem_of_si in Hm as [[Hen Hc] E].
    injection E as -> -> ->.
    apply direcciones_rey_spec in Hdir as (Hi & Hj & Hne).
    split_and!; try done; try lia.
    intros E. injection E as E1 E2. apply Hne. f_equal; lia.
  - intros (-> & Hen & Hne & Hi & Hj & Hc).
    exists [((i, j), (a, b))]. split; [apply list_elem_of_here|].
    apply list_elem_of_fmap. exists (a - i, b - j). simpl.
    replace (i + (a - i)) with a by lia. replace (j + (b - j)) with b by lia.
    split.
    + by rewrite decide_True.
    + apply direcciones_rey_spec. split_and!; try lia.
      intros E. injection E as E1 E2. apply Hne. f_equal; lia.
Qed.

Lemma movimientos_rey_exactos_ejemplo :
  ∃ l, __movimientos_rey inicializar_tablero (0, 1) 1 = Some l
    ∧ ((0, 1), (1, 1)) ∈ l.
Proof.
  destruct (movimientos_rey_exactos inicializar_tablero 0 1 1) as (l & Hl & Hm).
  - split; [reflexivity | repeat constructor].
  - exists l. split; [exact Hl|]. apply Hm. simpl.
    unfold en_tablero, N_FILAS, N_COLS. simpl.
    split_and!; try lia; try done. by left.
Defined.

(** ** The list of legal moves *)

(** What every generated move satisfies. *)
Lemma movimientos_validos_elem (t : tablero) (jugador : Z) (l : list mov) (m : mov) :
  forma t → __calcular_movimientos_validos t jugador = Some l → m ∈ l →
  (jugador = 1 ∨ jugador = -1)
  ∧ en_tablero m.1 ∧ en_tablero m.2 ∧ m.1 ≠ m.2
  ∧ celda t m.1 * jugador > 0
  ∧ (celda t m.2 = 0 ∨ celda t m.2 * jugador < 0).
Proof.
  intros Hf Hl Hm.
  unfold __calcular_movimientos_validos in Hl.
  destruct (mapM (movimientos_de_casilla t jugador) casillas) as [ls|] eqn:Hls;
    cbn in Hl; [|done].
  injection Hl as <-.
  destruct (mapM_concat_elem _ _ _ _ Hls Hm) as ([i j] & lb & Ho & Hlb & Hin).
  apply en_tablero_casillas in Ho.
  rewrite (movimientos_de_casilla_forma t jugador _ Hf Ho) in Hlb.
  destruct (decide ((jugador = 1 ∧ celda t (i, j) > 0)
                    ∨ (jugador = -1 ∧ celda t (i, j) < 0))) as [Hj|_];
    [|injection Hlb as <-; by apply elem_of_nil in Hin].
  assert (jugador = 1 ∨ jugador = -1) as Hjug by tauto.
  assert (celda t (i, j) * jugador > 0) as Hpropia.
  { destruct Hj as [[-> ?] | [-> ?]]; lia. }
  assert (m.1 = (i, j) ∧ en_tablero m.2 ∧ m.2 ≠ (i, j)
          ∧ (celda t m.2 = 0 ∨ celda t m.2 * jugador < 0))
    as (Hm1 & Hm2 & Hne & Hdest);
    [|rewrite Hm1; split_and!; auto].
  destruct (decide (Z.abs (celda t (i, j)) = PEON)) as [_|_];
    [|destruct (decide (Z.abs (celda t (i, j)) = TORRE)) as [_|_];
      [|destruct (decide (Z.abs (celda t (i, j)) = REY)) as [_|_]]].
  - rewrite movimientos_peon_forma in Hlb by done. injection Hlb as <-.
    rewrite !elem_of_app, !elem_of_si in Hin.
    destruct Ho as [_ Hcol]. simpl in Hcol.
    assert (∀ c, (i + jugador, c) ≠ (i, j)) as Hfila.
    { intros c E. injection E as E _. lia. }
    destruct Hin as [[[? ?] ->] | [[[? ?] ->] | [[? ?] ->]]];
      simpl; split_and!; auto. by split.
  - unfold __movimientos_torre in Hlb.
    match type of Hlb with
    | mapM ?f ?d ≫= _ = _ => destruct (mapM f d) as [rayos|] eqn:Hr
    end; cbn in Hlb; [|done].
    injection Hlb as <-.
    destruct (mapM_concat_elem _ _ _ _ Hr Hin) as ([di dj] & lr & Hd & Hlr & Hinr).
    cbv beta iota in Hlr.
    apply (rayo_desde_origen _ _ _ _ _ _ _ _ Hf Ho Hd Hlr) in Hinr
      as (H1 & H2 & H3 & k & Hk & H4 & _).
    split_and!; auto. rewrite H4. intros E. injection E as E1 E2.
    unfold direcciones_torre in Hd.
    repeat (apply elem_of_cons in Hd as [E|Hd]; [injection E as -> ->; lia|]).
    by apply elem_of_nil in Hd.
  - rewrite (movimientos_rey_forma t i j jugador Hf) in Hlb.
    apply (inj Some) in Hlb as <-.
    apply elem_of_concat in Hin as (paso & Hin & Hpaso).
    apply list_elem_of_fmap in Hpaso as ([di dj] & -> & Hdir).
    simpl in Hin. apply elem_of_si in Hin as [[Hen Hc] ->]. simpl.
    apply direcciones_rey_spec in Hdir as (_ & _ & Hne).
    split_and!; auto. intros E. injection E as E1 E2. apply Hne. f_equal; lia.
  - injection Hlb as <-. by apply elem_of_nil in Hin.
Qed.

(** X2. On a well-shaped board the list of legal moves is always
    produced, and every move of it goes from an on-board cell holding a
    piece of the side to a different on-board cell that is empty or holds
    a piece of the other side; no move lands on an own piece. For a side
    other than 1 and -1 the list is empty. *)
Theorem calcular_movimientos_validos_seguro (t : tablero) (jugador : Z) :
  forma t →
  ∃ l, __calcular_movimientos_validos t jugador = Some l
    ∧ (∀ m : mov, m ∈ l →
         en_tablero m.1 ∧ en_tablero m.2 ∧ m.1 ≠ m.2
         ∧ celda t m.1 * jugador > 0
         ∧ ¬ (celda t m.2 * jugador > 0))
    ∧ (jugador ≠ 1 → jugador ≠ -1 → l = []).
Proof.
  intros Hf.
  destruct (calcular_movimientos_validos_is_Some t jugador Hf) as [l Hl].
  exists l. split; [done|]. split.
  - intros m Hm.
    destruct (movimientos_validos_elem t jugador l m Hf Hl Hm)
      as (_ & H1 & H2 & H3 & H4 & H5).
    split_and!; auto. lia.
  - intros H1 H2. destruct l as [|m l]; [done|].
    destruct (movimientos_validos_elem t jugador _ m Hf Hl) as ([?|?] & _);
      [apply list_elem_of_here|done..].
Qed.

Lemma calcular_movimientos_validos_seguro_ejemplo :
  ∃ l, __calcular_movimientos_validos inicializar_tablero 1 = Some l
    ∧ ∀ m : mov, m ∈ l → ¬ (celda inicializar_tablero m.2 * 1 > 0).
Proof.
  destruct (calcular_movimientos_validos_seguro inicializar_tablero 1)
    as (l & Hl & Hm & _).
  - split; [reflexivity | repeat constructor].
  - exists l. split; [exact Hl|]. intros m Hin. apply (Hm m Hin).
Defined.

(** ** Applying a legal move *)

(** C5. For every move of a list of legal moves of the board of the
    session (the moves the engine is given), [__actualiza_estado]
    succeeds and: the destination holds the piece that was at the origin,
    whatever stood there before, the origin is empty, every other cell is
    untouched, the no-capture counter is 0 if the destination was occupied
    before the move and one more than before otherwise, the side to move
    is flipped, and the serialized state of the session is the
    serialization of the resulting board. *)
Theorem actualiza_estado_movimiento_legal (s : JuegoMiniChess) (jugador : Z)
    (movs : list mov) (m : mov) :
  forma (_tablero s) → _n_filas s = N_FILAS → _n_cols s = N_COLS →
  __calcular_movimientos_validos (_tablero s) jugador = Some movs →
  m ∈ movs →
  ∃ s', __actualiza_estado s m = Some s'
    ∧ forma (_tablero s')
    ∧ celda (_tablero s') m.2 = celda (_tablero s) m.1
    ∧ celda (_tablero s') m.1 = 0
    ∧ (∀ p, en_tablero p → p ≠ m.1 → p ≠ m.2 →
            celda (_tablero s') p = celda (_tablero s) p)
    ∧ _turnos_sin_captura s'
      = (if decide (celda (_tablero s) m.2 = 0)
         then _turnos_sin_captura s + 1 else 0)
    ∧ _siguiente_jugador s' = (if decide (_siguiente_jugador s = 1) then -1 else 1)
    ∧ (_siguiente_jugador s = 1 ∨ _siguiente_jugador s = -1 →
       _siguiente_jugador s' = - _siguiente_jugador s)
    ∧ _estado s' = _serializa_estado (_tablero s') N_FILAS N_COLS
    ∧ is_Some (_estado s').
Proof.
  intros Hf Hnf Hnc Hmovs Hin.
  destruct (movimientos_validos_elem _ _ _ _ Hf Hmovs Hin)
    as (_ & Ho & Hd & Hne & _ & _).
  destruct m as [origen destino].
  by apply actualiza_estado_movimiento.
Qed.

Lemma actualiza_estado_movimiento_legal_ejemplo :
  ∃ s', __actualiza_estado JuegoMiniChess_init ((1, 0), (2, 0)) = Some s'
    ∧ celda (_tablero s') (2, 0) = PEON
    ∧ celda (_tablero s') (1, 0) = 0
    ∧ _turnos_sin_captura s' = 1
    ∧ _siguiente_jugador s' = -1.
Proof.
  destruct (actualiza_estado_movimiento_legal JuegoMiniChess_init 1
              movimientos_iniciales ((1, 0), (2, 0)))
    as (s' & Hs' & _ & Hd & Ho & _ & Ht & Hj & _).
  - split; [reflexivity|]. repeat constructor.
  - reflexivity.
  - reflexivity.
  - reflexivity.
  - unfold movimientos_iniciales.
    repeat first [apply list_elem_of_here | apply list_elem_of_further].
  - exists s'. split; [exact Hs'|].
    split; [exact Hd|]. split; [exact Ho|]. split; [exact Ht|exact Hj].
Defined.

(** ** The outcome of the terminal evaluation *)

Lemma calcula_ganador_forma (s : JuegoMiniChess) :
  forma (_tablero s) →
  ∃ res l1 l2,
    __calcular_movimientos_validos (_tablero s) 1 = Some l1
    ∧ __calcular_movimientos_validos (_tablero s) (-1) = Some l2
    ∧ __calcula_ganador s = Some (res, con_fin (bool_decide (res ≠ None)) s)
    ∧ (res = None ↔
       (hay_rey (_tablero s) 1 ∧ hay_rey (_tablero s) (-1) ∧ l1 ≠ [] ∧ l2 ≠ [])
       ∧ _turnos_sin_captura s < 50)
    ∧ (res = Some 0 ↔
       (hay_rey (_tablero s) 1 ∧ hay_rey (_tablero s) (-1) ∧ l1 ≠ [] ∧ l2 ≠ [])
       ∧ 50 ≤ _turnos_sin_captura s)
    ∧ (res = None ∨ res = Some 0 ∨ res = Some 1 ∨ res = Some (-1)).
Proof.
  intros Hf.
  destruct (busca_reyes_forma _ Hf) as (r1 & r2 & Hr & H1 & H2).
  destruct (calcular_movimientos_validos_is_Some (_tablero s) 1 Hf) as [l1 Hl1].
  destruct (calcular_movimientos_validos_is_Some (_tablero s) (-1) Hf) as [l2 Hl2].
  unfold __calcula_ganador. rewrite Hr. cbn.
  assert (∀ A (l : list A), length l = 0%nat ↔ l = []) as Hlen
    by (intros A l; by destruct l).
  destruct r1; cbn.
  - destruct r2; cbn.
    + rewrite Hl1, Hl2. cbn.
      destruct (decide (length l1 = 0%nat)) as [E1|E1].
      { exists (Some (-1)), l1, l2. rewrite bool_decide_eq_true_2 by done.
        apply Hlen in E1. split_and!; auto; split; try done; tauto. }
      destruct (decide (length l2 = 0%nat)) as [E2|E2].
      { exists (Some 1), l1, l2. rewrite bool_decide_eq_true_2 by done.
        apply Hlen in E2. split_and!; auto; split; try done; tauto. }
      rewrite Hlen in E1, E2.
      assert (hay_rey (_tablero s) 1) by by apply H1.
      assert (hay_rey (_tablero s) (-1)) by by apply H2.
      destruct (decide (_turnos_sin_captura s >= 50)) as [E3|E3].
      { exists (Some 0), l1, l2. rewrite bool_decide_eq_true_2 by done.
        split_and!; auto; split; try done; try lia. intros _. split_and!; auto. lia. }
      exists None, l1, l2. rewrite bool_decide_eq_false_2 by (intros E; by apply E).
      split_and!; auto; split; try done; try lia. intros _. split_and!; auto. lia.
    + exists (Some 1), l1, l2. rewrite bool_decide_eq_true_2 by done.
      assert (¬ hay_rey (_tablero s) (-1)) by (intros E; by apply H2 in E).
      split_and!; auto; split; try done; tauto.
  - exists (Some (-1)), l1, l2. rewrite bool_decide_eq_true_2 by done.
    assert (¬ hay_rey (_tablero s) 1) by (intros E; by apply H1 in E).
    split_and!; auto; split; try done; tauto.
Qed.

(** X3. On a well-shaped board the terminal evaluation always returns
    one of None, 0, 1 and -1, and changes nothing in the session but the
    flag [_fin], which it sets exactly when the result is not None. The
    game goes on (None) exactly when both kings are there, both sides have
    a legal move and the no-capture counter is below 50; it is a draw (0)
    exactly when both kings are there, both sides have a legal move and
    the counter has reached 50. *)
Theorem calcula_ganador_resultado (s : JuegoMiniChess) :
  forma (_tablero s) →
  ∃ res l1 l2,
    __calcular_movimientos_validos (_tablero s) 1 = Some l1
    ∧ __calcular_movimientos_validos (_tablero s) (-1) = Some l2
    ∧ __calcula_ganador s = Some (res, con_fin (bool_decide (res ≠ None)) s)
    ∧ (res = None ↔
       (hay_rey (_tablero s) 1 ∧ hay_rey (_tablero s) (-1) ∧ l1 ≠ [] ∧ l2 ≠ [])
       ∧ _turnos_sin_captura s < 50)
    ∧ (res = Some 0 ↔
       (hay_rey (_tablero s) 1 ∧ hay_rey (_tablero s) (-1) ∧ l1 ≠ [] ∧ l2 ≠ [])
       ∧ 50 ≤ _turnos_sin_captura s)
    ∧ (res = None ∨ res = Some 0 ∨ res = Some 1 ∨ res = Some (-1)).
Proof. apply calcula_ganador_forma. Qed.

Lemma calcula_ganador_resultado_ejemplo :
  ∃ res, __calcula_ganador (con_turnos 50 JuegoMiniChess_init)
         = Some (res, con_fin (bool_decide (res ≠ None))
                        (con_turnos 50 JuegoMiniChess_init)).
Proof.
  destruct (calcula_ganador_resultado (con_turnos 50 JuegoMiniChess_init))
    as (res & l1 & l2 & _ & _ & H & _).
  - split; [reflexivity | repeat constructor].
  - exists res. exact H.
Defined.

(** ** What a move does to the board *)

(** The board part of [__actualiza_estado] is the simulation of the agent;
    the cells of the new board, and the session left by the move. *)
Lemma actualiza_estado_simula (s : JuegoMiniChess) (origen destino : pos) :
  forma (_tablero s) → _n_filas s = N_FILAS → _n_cols s = N_COLS →
  en_tablero origen → en_tablero destino →
  ∃ t', simula (_tablero s) (origen, destino) = Some t'
    ∧ forma t'
    ∧ (∀ p, en_tablero p →
         celda t' p = if decide (p = origen) then 0
                      else if decide (p = destino) then celda (_tablero s) origen
                      else celda (_tablero s) p)
    ∧ __actualiza_estado s (origen, destino)
      = Some {| _n_filas := _n_filas s;
                _n_cols := _n_cols s;
                _tablero := t';
                _fin := _fin s;
                _estado := Some (str_ndarray (concat t'));
                _siguiente_jugador :=
                  if decide (_siguiente_jugador s = 1) then -1 else 1;
                _turnos_sin_captura :=
                  if decide (celda (_tablero s) destino ≠ 0) then 0
                  else _turnos_sin_captura s + 1 |}.
Proof.
  intros Hf Hnf Hnc Ho Hd.
  destruct (escribir_is_Some (_tablero s) destino (celda (_tablero s) origen) Hf Hd)
    as [t1 Ht1].
  pose proof (escribir_forma _ _ _ _ Hf Hd Ht1) as Hf1.
  destruct (escribir_is_Some t1 origen 0 Hf1 Ho) as [t2 Ht2].
  pose proof (escribir_forma _ _ _ _ Hf1 Ho Ht2) as Hf2.
  exists t2. split_and!.
  - unfold simula. cbn [fst snd]. rewrite (leer_celda _ _ Hf Ho). cbn.
    rewrite Ht1. cbn. done.
  - done.
  - intros p Hp.
    rewrite (celda_escribir _ _ _ _ _ Hf1 Ho Hp Ht2).
    case_decide; [done|].
    by rewrite (celda_escribir _ _ _ _ _ Hf Hd Hp Ht1).
  - unfold __actualiza_estado.
    rewrite (leer_celda _ _ Hf Ho), (leer_celda _ _ Hf Hd). cbn.
    rewrite Ht1. cbn. rewrite Ht2. cbn.
    rewrite Hnf, Hnc, (serializa_forma t2 Hf2). cbn. done.
Qed.

Lemma escribir_legal (t : tablero) (p : pos) (v : Z) (t' : tablero) :
  tablero_legal t → en_tablero p → pieza_legal v →
  escribir t p v = Some t' → tablero_legal t'.
Proof.
  intros [Hf Hl] Hp Hv He. split; [by eapply escribir_forma|].
  destruct (escribir_forma_eq t p v Hf Hp) as (fila & Hfila & _ & Heq).
  rewrite Heq in He. injection He as <-.
  apply Forall_insert; [done|].
  apply Forall_insert; [|done].
  by apply (Forall_lookup_1 _ _ _ _ Hl Hfila).
Qed.

(** X4. A move between on-board cells keeps a legal board legal: after
    [__actualiza_estado] the board still has its 4x4 shape and holds piece
    codes only. *)
Theorem actualiza_estado_legal (s : JuegoMiniChess) (origen destino : pos) :
  tablero_legal (_tablero s) → _n_filas s = N_FILAS → _n_cols s = N_COLS →
  en_tablero origen → en_tablero destino →
  ∃ s', __actualiza_estado s (origen, destino) = Some s'
    ∧ tablero_legal (_tablero s').
Proof.
  intros Hl Hnf Hnc Ho Hd. pose proof Hl as [Hf Hcod].
  destruct (actualiza_estado_simula s origen destino Hf Hnf Hnc Ho Hd)
    as (t' & Hsim & _ & _ & ->).
  eexists. split; [done|]. cbn.
  unfold simula in Hsim. cbn [fst snd] in Hsim.
  rewrite (leer_celda _ _ Hf Ho) in Hsim. cbn in Hsim.
  destruct (escribir (_tablero s) destino (celda (_tablero s) origen))
    as [t1|] eqn:Ht1; cbn in Hsim; [|done].
  assert (pieza_legal (celda (_tablero s) origen)) as Hpieza.
  { destruct (leer_forma _ origen Hf Ho) as (fila & c & Hfila & _ & Hc & Hleer).
    unfold celda. rewrite Hleer. simpl.
    pose proof (Forall_lookup_1 _ _ _ _ Hcod Hfila) as Hfl.
    by apply (Forall_lookup_1 _ _ _ _ Hfl Hc). }
  pose proof (escribir_legal _ _ _ _ Hl Hd Hpieza Ht1) as Hl1.
  apply (escribir_legal _ _ _ _ Hl1 Ho) in Hsim; [done|]. by left.
Qed.

Lemma actualiza_estado_legal_ejemplo :
  ∃ s', __actualiza_estado JuegoMiniChess_init ((1, 0), (2, 0)) = Some s'
    ∧ tablero_legal (_tablero s').
Proof.
  apply (actualiza_estado_legal JuegoMiniChess_init (1, 0) (2, 0)).
  - exact legal_inicial.
  - reflexivity.
  - reflexivity.
  - unfold en_tablero, N_FILAS, N_COLS; simpl; lia.
  - unfold en_tablero, N_FILAS, N_COLS; simpl; lia.
Defined.

(** The agent simulates a move the way the engine applies it. *)

(** X5. For a move between on-board cells of a well-shaped board, the
    value the loop of [decide_accion] computes for the move, on a copy of
    the board, is the table entry (0 when there is none) of the very key
    that [__actualiza_estado] stores in the session when the move is
    applied: the one-move lookahead of the agent and the transition of
    the engine agree. *)
Theorem valor_sucesor_estado (experiencia : gmap string Q) (s : JuegoMiniChess)
    (m : mov) :
  forma (_tablero s) → _n_filas s = N_FILAS → _n_cols s = N_COLS →
  mov_en_tablero m →
  ∃ s' clave,
    __actualiza_estado s m = Some s'
    ∧ _estado s' = Some clave
    ∧ ∀ (h : almacen) (tab : ref), h !! tab = Some (_tablero s) →
        ∃ h', evalua_movimiento experiencia h tab m
              = Some (default 0%Q (experiencia !! clave), h')
          ∧ h' !! tab = Some (_tablero s).
Proof.
  intros Hf Hnf Hnc [Ho Hd]. destruct m as [origen destino].
  destruct (actualiza_estado_simula s origen destino Hf Hnf Hnc Ho Hd)
    as (t' & Hsim & Hf' & _ & ->).
  eexists _, _. split; [done|]. cbn [_estado]. split; [done|].
  intros h tab Ht.
  rewrite (evalua_movimiento_puro experiencia h tab _ _ Ht), Hsim. cbn.
  rewrite (serializa_forma t' Hf'). cbn.
  eexists. split; [done|].
  rewrite lookup_insert_ne; [done|].
  intros E. pose proof (fresco_libre h) as Hn. congruence.
Qed.

Lemma valor_sucesor_estado_ejemplo :
  ∃ s' clave,
    __actualiza_estado JuegoMiniChess_init ((0, 1), (0, 2)) = Some s'
    ∧ _estado s' = Some clave
    ∧ ∃ h', evalua_movimiento (_experiencia_estado_valor jugador_codicioso)
              almacen_inicial 1%positive ((0, 1), (0, 2))
            = Some (default 0%Q
                      (_experiencia_estado_valor jugador_codicioso !! clave), h').
Proof.
  destruct (valor_sucesor_estado (_experiencia_estado_valor jugador_codicioso)
              JuegoMiniChess_init ((0, 1), (0, 2)))
    as (s' & clave & H1 & H2 & H3).
  - split; [reflexivity | repeat constructor].
  - reflexivity.
  - reflexivity.
  - split; unfold en_tablero, N_FILAS, N_COLS; simpl; lia.
  - exists s', clave. split; [exact H1|]. split; [exact H2|].
    destruct (H3 almacen_inicial 1%positive eq_refl) as (h' & Hh' & _).
    exists h'. exact Hh'.
Defined.

(** ** Counting pieces *)

Lemma sum_list_with_cambio {A} `{!EqDecision A} (f g : A → nat) (l : list A) (p : A) :
  NoDup l → (∀ q, q ∈ l → q ≠ p → g q = f q) →
  (sum_list_with g l + (if decide (p ∈ l) then f p else 0)
   = sum_list_with f l + (if decide (p ∈ l) then g p else 0))%nat.
Proof.
  induction l as [|x l IH]; intros Hnd Heq; simpl.
  - done.
  - apply NoDup_cons in Hnd as [Hx Hnd].
    assert (∀ q, q ∈ l → q ≠ p → g q = f q) as Heq'
      by (intros q Hq; apply Heq; by apply list_elem_of_further).
    specialize (IH Hnd Heq').
    destruct (decide (x = p)) as [->|Hne].
    + destruct (decide (p ∈ p :: l)) as [_|H];
        [|exfalso; apply H, list_elem_of_here].
      rewrite decide_False in IH by done.
      destruct (decide (p ∈ l)); [done|lia].
    + rewrite (Heq x) by (done || apply list_elem_of_here).
      destruct (decide (p ∈ l)) as [Hin|Hin];
        destruct (decide (p ∈ x :: l)) as [Hin'|Hin']; try lia.
      * exfalso. by apply Hin', list_elem_of_further.
      * exfalso. apply elem_of_cons in Hin' as [E|E]; done.
Qed.

Lemma NoDup_casillas : NoDup casillas.
Proof. apply (bool_decide_unpack _). by vm_compute. Qed.

Lemma piezas_escribir (t : tablero) (p : pos) (v : Z) (t' : tablero) :
  forma t → en_tablero p → escribir t p v = Some t' →
  (piezas t' + (if decide (celda t p = 0%Z) then 0 else 1)
   = piezas t + (if decide (v = 0%Z) then 0 else 1))%nat.
Proof.
  intros Hf Hp He. unfold piezas.
  pose proof (sum_list_with_cambio
                (λ q, if decide (celda t q = 0) then 0%nat else 1%nat)
                (λ q, if decide (celda t' q = 0) then 0%nat else 1%nat)
                casillas p NoDup_casillas) as H.
  destruct (decide (p ∈ casillas)) as [_|Hn];
    [|exfalso; by apply Hn, en_tablero_casillas].
  rewrite (celda_escribir t p p v t' Hf Hp Hp He) in H.
  rewrite (decide_True (P := p = p)) in H by done.
  apply H. intros q Hq Hne. apply en_tablero_casillas in Hq.
  rewrite (celda_escribir t p q v t' Hf Hp Hq He).
  by rewrite (decide_False (P := q = p)).
Qed.

Lemma simula_piezas (t : tablero) (origen destino : pos) (t' : tablero) :
  forma t → en_tablero origen → en_tablero destino → origen ≠ destino →
  simula t (origen, destino) = Some t' →
  (piezas t' + (if decide (celda t destino = 0%Z) then 0 else 1) = piezas t)%nat.
Proof.
  intros Hf Ho Hd Hne Hsim. unfold simula in Hsim. cbn [fst snd] in Hsim.
  rewrite (leer_celda _ _ Hf Ho) in Hsim. cbn in Hsim.
  destruct (escribir t destino (celda t origen)) as [t1|] eqn:Ht1;
    cbn in Hsim; [|done].
  pose proof (escribir_forma _ _ _ _ Hf Hd Ht1) as Hf1.
  pose proof (piezas_escribir _ _ _ _ Hf Hd Ht1) as H1.
  pose proof (piezas_escribir _ _ _ _ Hf1 Ho Hsim) as H2.
  rewrite (celda_escribir _ _ _ _ _ Hf Hd Ho Ht1) in H2.
  rewrite (decide_False (P := origen = destino)) in H2 by done.
  rewrite (decide_True (P := 0 = 0)) in H2 by done.
  lia.
Qed.

(** X6. A move between two distinct on-board cells never adds a piece:
    either the destination was occupied, one piece disappears and the
    no-capture counter is reset to 0, or it was empty, the number of
    pieces is unchanged and the counter grows by one. *)
Theorem actualiza_estado_piezas (s : JuegoMiniChess) (origen destino : pos) :
  forma (_tablero s) → _n_filas s = N_FILAS → _n_cols s = N_COLS →
  en_tablero origen → en_tablero destino → origen ≠ destino →
  ∃ s', __actualiza_estado s (origen, destino) = Some s'
    ∧ ((celda (_tablero s) destino ≠ 0
        ∧ S (piezas (_tablero s')) = piezas (_tablero s)
        ∧ _turnos_sin_captura s' = 0)
       ∨ (celda (_tablero s) destino = 0
          ∧ piezas (_tablero s') = piezas (_tablero s)
          ∧ _turnos_sin_captura s' = _turnos_sin_captura s + 1)).
Proof.
  intros Hf Hnf Hnc Ho Hd Hne.
  destruct (actualiza_estado_simula s origen destino Hf Hnf Hnc Ho Hd)
    as (t' & Hsim & _ & _ & ->).
  eexists. split; [done|]. cbn.
  pose proof (simula_piezas _ _ _ _ Hf Ho Hd Hne Hsim) as Hp.
  destruct (decide (celda (_tablero s) destino = 0)) as [E|E].
  - right. rewrite decide_False by (intros H; by apply H). split_and!; auto. lia.
  - left. rewrite decide_True by done. split_and!; auto. lia.
Qed.

Lemma actualiza_estado_piezas_ejemplo :
  ∃ s', __actualiza_estado JuegoMiniChess_init ((1, 0), (2, 0)) = Some s'
    ∧ piezas (_tablero s') = 6%nat.
Proof.
  destruct (actualiza_estado_piezas JuegoMiniChess_init (1, 0) (2, 0))
    as (s' & Hs' & [(H & _) | (_ & H & _)]).
  - split; [reflexivity | repeat constructor].
  - reflexivity.
  - reflexivity.
  - unfold en_tablero, N_FILAS, N_COLS; simpl; lia.
  - unfold en_tablero, N_FILAS, N_COLS; simpl; lia.
  - discriminate.
  - exfalso. apply H. reflexivity.
  - exists s'. split; [exact Hs'|]. rewrite H. reflexivity.
Defined.

(** ** Capturing the king *)

(** X7. Taking the only king of the other side ends the game for the
    side that takes it: when the destination of the move holds the only
    king of the side opposite to [j] and the king of side [j] is on the
    board, the evaluation that follows [__actualiza_estado] returns [j]
    and sets [_fin]. *)
Theorem captura_rey_gana (s : JuegoMiniChess) (origen destino : pos) (j : Z) :
  forma (_tablero s) → _n_filas s = N_FILAS → _n_cols s = N_COLS →
  en_tablero origen → en_tablero destino → origen ≠ destino →
  j = 1 ∨ j = -1 →
  celda (_tablero s) destino = - j * REY →
  (∀ p, en_tablero p → celda (_tablero s) p = - j * REY → p = destino) →
  hay_rey (_tablero s) j →
  ∃ s', __actualiza_estado s (origen, destino) = Some s'
    ∧ __calcula_ganador s' = Some (Some j, con_fin true s').
Proof.
  intros Hf Hnf Hnc Ho Hd Hne Hj Hrey Hunico (p & Hp & Hpropio).
  destruct (actualiza_estado_simula s origen destino Hf Hnf Hnc Ho Hd)
    as (t' & _ & Hf' & Hceldas & ->).
  eexists. split; [done|].
  assert (¬ hay_rey t' (- j)) as Hno.
  { intros (q & Hq & Hc). rewrite (Hceldas q Hq) in Hc.
    replace (- j * REY) with (- (j * REY)) in * by lia.
    unfold REY in *. repeat case_decide; subst.
    - lia.
    - apply Hne. apply Hunico; [done|]. lia.
    - apply H0. apply Hunico; [done|]. lia. }
  assert (hay_rey t' j) as Hsi.
  { assert (p ≠ destino) as Hpd.
    { intros ->. rewrite Hrey in Hpropio. unfold REY in *. lia. }
    destruct (decide (p = origen)) as [->|Hpo].
    - exists destino. split; [done|].
      rewrite (Hceldas destino Hd), decide_False by done.
      by rewrite decide_True.
    - exists p. split; [done|].
      rewrite (Hceldas p Hp), decide_False by done.
      by rewrite decide_False. }
  unfold __calcula_ganador. cbn [_tablero].
  destruct (busca_reyes_forma t' Hf') as (r1 & r2 & -> & H1 & H2). cbn.
  destruct Hj as [-> | ->].
  - apply H1 in Hsi as ->. cbn.
    destruct r2; [|done]. exfalso. apply Hno. by apply H2.
  - destruct r1; [|done]. exfalso. apply Hno. by apply H1.
Qed.

Lemma captura_rey_gana_ejemplo :
  let s := con_tablero [ [REY; 0; 0; 0]; [TORRE; 0; 0; 0];
                         [0; 0; 0; 0]; [- REY; 0; 0; 0] ] JuegoMiniChess_init in
  ∃ s', __actualiza_estado s ((1, 0), (3, 0)) = Some s'
    ∧ __calcula_ganador s' = Some (Some 1, con_fin true s').
Proof.
  apply (captura_rey_gana
           (con_tablero [ [REY; 0; 0; 0]; [TORRE; 0; 0; 0];
                          [0; 0; 0; 0]; [- REY; 0; 0; 0] ] JuegoMiniChess_init)
           (1, 0) (3, 0) 1).
  - split; [reflexivity | repeat constructor].
  - reflexivity.
  - reflexivity.
  - unfold en_tablero, N_FILAS, N_COLS; simpl; lia.
  - unfold en_tablero, N_FILAS, N_COLS; simpl; lia.
  - discriminate.
  - left; reflexivity.
  - reflexivity.
  - intros [a b] [Ha Hb]. unfold N_FILAS, N_COLS in *. simpl in Ha, Hb.
    assert (a = 0 ∨ a = 1 ∨ a = 2 ∨ a = 3) as Ea by lia.
    assert (b = 0 ∨ b = 1 ∨ b = 2 ∨ b = 3) as Eb by lia.
    destruct Ea as [-> | [-> | [-> | ->]]], Eb as [-> | [-> | [-> | ->]]];
      vm_compute; intros E; first [reflexivity | discriminate E].
  - exists (0, 0). split; [|reflexivity].
    unfold en_tablero, N_FILAS, N_COLS; simpl; lia.
Defined.

(** ** What reward propagation touches *)

Section propaga.
Context (alpha gamma : Q).

Lemma propaga_spec_fuera (recientes : list string) :
  ∀ (tabla : gmap string Q) (r : Q) (k : string),
  k ∉ recientes →
  propaga_spec alpha gamma recientes tabla r !! k = tabla !! k.
Proof.
  induction recientes as [|s recientes IH]; intros tabla r k Hk; [done|].
  apply not_elem_of_cons in Hk as [Hne Hk]. cbn [propaga_spec].
  rewrite IH by done. by rewrite lookup_insert_ne.
Qed.

Lemma propaga_spec_dentro (recientes : list string) :
  ∀ (tabla : gmap string Q) (r : Q) (k : string),
  k ∈ recientes ∨ is_Some (tabla !! k) →
  is_Some (propaga_spec alpha gamma recientes tabla r !! k).
Proof.
  induction recientes as [|s recientes IH]; intros tabla r k Hk.
  - destruct Hk as [Hk|Hk]; [by apply elem_of_nil in Hk|done].
  - cbn [propaga_spec]. apply IH.
    destruct (decide (s = k)) as [->|Hne].
    + right. rewrite lookup_insert_eq. eauto.
    + rewrite lookup_insert_ne by done.
      destruct Hk as [Hk|Hk]; [|by right].
      apply elem_of_cons in Hk as [->|Hk]; [done|by left].
Qed.

(** Values stay between 0 and 1 when the rates and the target do. *)
Lemma propaga_spec_cotas (recientes : list string) :
  (0 <= alpha <= 1)%Q → (0 <= gamma <= 1)%Q →
  ∀ (tabla : gmap string Q) (r : Q),
  (0 <= r <= 1)%Q →
  map_Forall (λ _ v, (0 <= v <= 1)%Q) tabla →
  map_Forall (λ _ v, (0 <= v <= 1)%Q)
    (propaga_spec alpha gamma recientes tabla r).
Proof.
  intros Ha Hg.
  induction recientes as [|s recientes IH]; intros tabla r Hr Ht; [done|].
  cbn [propaga_spec].
  assert (0 <= default 0 (tabla !! s) <= 1)%Q as Hv.
  { destruct (tabla !! s) as [v|] eqn:E; simpl; [by apply (Ht s v)|lra]. }
  set (v := default 0%Q (tabla !! s)) in *.
  assert (0 <= v + alpha * (r - v) <= 1)%Q as Hn by nra.
  apply IH.
  - nra.
  - by apply map_Forall_insert_2.
Qed.

End propaga.

Lemma retropropaga_recompensa_spec (self : JugadorMiniChessMaq) (r : Q) :
  retropropaga_recompensa self r
  = Some (con_experiencia
            (propaga_spec (_tasa_aprendizaje self) (_descuento_gamma self)
               (reverse (_estados_juego_actual self))
               (_experiencia_estado_valor self) r)
            self).
Proof.
  unfold retropropaga_recompensa.
  by rewrite retro_bucle_estados, indices_invertidos.
Qed.

(** X8. [retropropaga_recompensa] writes the entries of the states of the
    trace and no other: afterwards every state of the trace has a value,
    every other key has the value it had (or still none), and the trace
    and the three rates of the agent are unchanged. *)
Theorem retropropaga_recompensa_marco (self : JugadorMiniChessMaq) (r : Q) :
  ∃ self', retropropaga_recompensa self r = Some self'
    ∧ (∀ k, k ∈ _estados_juego_actual self →
            is_Some (_experiencia_estado_valor self' !! k))
    ∧ (∀ k, k ∉ _estados_juego_actual self →
            _experiencia_estado_valor self' !! k
            = _experiencia_estado_valor self !! k)
    ∧ _estados_juego_actual self' = _estados_juego_actual self
    ∧ _tasa_exploracion self' = _tasa_exploracion self
    ∧ _tasa_aprendizaje self' = _tasa_aprendizaje self
    ∧ _descuento_gamma self' = _descuento_gamma self.
Proof.
  eexists. split; [apply retropropaga_recompensa_spec|]. cbn. split_and!; try done.
  - intros k Hk. apply propaga_spec_dentro. left. by apply elem_of_reverse.
  - intros k Hk. apply propaga_spec_fuera. by rewrite elem_of_reverse.
Qed.

(** X9. With a learning rate and a discount between 0 and 1 and a final
    reward between 0 and 1 (the rewards of the game are 0, 0.5 and 1),
    [retropropaga_recompensa] keeps a table whose values are all between
    0 and 1 within these bounds. *)
Theorem retropropaga_recompensa_cotas (self : JugadorMiniChessMaq) (r : Q) :
  (0 <= _tasa_aprendizaje self <= 1)%Q →
  (0 <= _descuento_gamma self <= 1)%Q →
  (0 <= r <= 1)%Q →
  map_Forall (λ _ v, (0 <= v <= 1)%Q) (_experiencia_estado_valor self) →
  ∃ self', retropropaga_recompensa self r = Some self'
    ∧ map_Forall (λ _ v, (0 <= v <= 1)%Q) (_experiencia_estado_valor self').
Proof.
  intros Ha Hg Hr Ht.
  eexists. split; [apply retropropaga_recompensa_spec|]. cbn.
  by apply propaga_spec_cotas.
Qed.

Lemma retropropaga_recompensa_cotas_ejemplo :
  ∃ self',
    retropropaga_recompensa
      (con_estados ["a"; "b"; "a"] (JugadorMiniChessMaq_por_defecto "maq")) 1
    = Some self'
    ∧ map_Forall (λ _ v, (0 <= v <= 1)%Q) (_experiencia_estado_valor self').
Proof.
  apply (retropropaga_recompensa_cotas
           (con_estados ["a"; "b"; "a"] (JugadorMiniChessMaq_por_defecto "maq")) 1).
  - cbn. lra.
  - cbn. lra.
  - lra.
  - cbn. apply map_Forall_empty.
Defined.

(** ** The two branches of the choice of a move *)

Lemma evalua_movimiento_val (experiencia : gmap string Q) (h : almacen)
    (tab : ref) (t : tablero) (m : mov) :
  forma t → h !! tab = Some t → mov_en_tablero m →
  ∃ h', evalua_movimiento experiencia h tab m
        = Some (val_mov experiencia t m, h').
Proof.
  intros Hf Ht Hm.
  rewrite (evalua_movimiento_puro experiencia h tab t m Ht).
  unfold val_mov, valor_sucesor.
  destruct (simula_forma t m Hf Hm) as (t' & -> & Hf'). cbn.
  rewrite (serializa_forma t' Hf'). cbn. eauto.
Qed.

(** X10. On a well-shaped board and a non-empty list of on-board moves:
    when the uniform draw is at most [tasa_exploracion], [decide_accion]
    returns the move at the drawn index of the list and allocates
    nothing; when the draw is above it, the move it returns is a move of
    the list whose value is the greatest among all the moves of the list,
    the value of a move being the number its loop computes for it (the
    table entry of the serialized successor board, 0 for a board not in
    the table). *)
Theorem decide_accion_explora_o_maximiza (self : JugadorMiniChessMaq) (u : Q)
    (r : nat) (movs : list mov) (tab : ref) (token : Z) (h : almacen)
    (t : tablero) :
  forma t → h !! tab = Some t → Forall mov_en_tablero movs → movs ≠ [] →
  ((u <= _tasa_exploracion self)%Q →
   ∃ m, decide_accion self u r movs tab token h = Some (m, h)
     ∧ movs !! (r mod length movs)%nat = Some m)
  ∧ (¬ (u <= _tasa_exploracion self)%Q →
     ∃ m h', decide_accion self u r movs tab token h = Some (m, h')
       ∧ m ∈ movs
       ∧ ∀ m', m' ∈ movs →
           (val_mov (_experiencia_estado_valor self) t m'
            <= val_mov (_experiencia_estado_valor self) t m)%Q)
  ∧ (∀ m' (h1 : almacen), m' ∈ movs → h1 !! tab = Some t →
       ∃ h2, evalua_movimiento (_experiencia_estado_valor self) h1 tab m'
             = Some (val_mov (_experiencia_estado_valor self) t m', h2)).
Proof.
  intros Hf Ht Hmovs Hne.
  destruct (decide_accion_ramas self u r movs tab token h t Hf Ht Hmovs Hne)
    as [Hexp Hmax].
  split; [exact Hexp|]. split.
  2:{ intros m' h1 Hm' Hh1. apply evalua_movimiento_val; try done.
      by apply (proj1 (Forall_forall _ _) Hmovs). }
  intros Hu. destruct (Hmax Hu) as (q & ms & m & h' & Hd & (Hle & _ & ->) & Hm).
  exists m, h'. split; [done|].
  assert (m ∈ movs ∧ (val_mov (_experiencia_estado_valor self) t m == q)%Q)
    as [Hin Hq].
  { assert (In m (List.filter
                    (λ m0, Qeq_bool (val_mov (_experiencia_estado_valor self) t m0) q)
                    movs)) as Hf'.
    { apply list_elem_of_In, list_elem_of_lookup. eauto. }
    apply List.filter_In in Hf' as [Hin Hq].
    split; [by apply list_elem_of_In | by apply Qeq_bool_iff]. }
  split; [done|].
  intros m' Hm'. rewrite Hq.
  by apply (proj1 (Forall_forall _ _) Hle).
Qed.

Lemma decide_accion_explora_o_maximiza_ejemplo :
  ∃ m h',
    decide_accion jugador_codicioso (1 # 2) 1 movimientos_iniciales 1%positive 1
      almacen_inicial = Some (m, h')
    ∧ ∀ m', m' ∈ movimientos_iniciales →
        (val_mov (_experiencia_estado_valor jugador_codicioso)
           inicializar_tablero m'
         <= val_mov (_experiencia_estado_valor jugador_codicioso)
              inicializar_tablero m)%Q.
Proof.
  destruct (decide_accion_explora_o_maximiza jugador_codicioso (1 # 2) 1
              movimientos_iniciales 1%positive 1 almacen_inicial
              inicializar_tablero) as (_ & Hmax & _).
  - split; [reflexivity | repeat constructor].
  - reflexivity.
  - repeat (apply Forall_cons; split); try apply Forall_nil;
      unfold mov_en_tablero, en_tablero, N_FILAS, N_COLS; simpl; lia.
  - discriminate.
  - destruct Hmax as (m & h' & Hd & _ & Hle).
    + cbn. intros H. apply Qle_bool_iff in H. discriminate H.
    + exists m, h'. split; [exact Hd | exact Hle].
Defined.

(** ** The person's move *)

(** X11. [JugadorMiniChessHum.decide_accion] returns the move at the
    first index typed that is an index of the list: entries that are not
    numbers and numbers out of range, negative ones included, are skipped,
    and nothing is returned as long as no index of the list is typed. *)
Theorem decide_accion_hum_primero (tecleado : list (option Z)) (movs : list mov)
    (m : mov) :
  decide_accion_hum tecleado movs = Some m
  ↔ ∃ antes idx despues,
      tecleado = antes ++ Some idx :: despues
      ∧ Forall (λ e, ∀ i, e = Some i → ¬ (0 ≤ i < Z.of_nat (length movs))) antes
      ∧ 0 ≤ idx < Z.of_nat (length movs)
      ∧ movs !! Z.to_nat idx = Some m.
Proof.
  induction tecleado as [|e l IH]; simpl.
  - split; [done|]. intros (antes & idx & despues & E & _). by destruct antes.
  - destruct e as [i|].
    + destruct (decide (0 ≤ i < Z.of_nat (length movs))) as [Hi|Hi].
      * split.
        -- intros Hm. exists [], i, l. split_and!; auto; try lia.
        -- intros (antes & idx & despues & E & Hantes & Hidx & Hm).
           destruct antes as [|e antes].
           ++ simpl in E. injection E as E1 E2. by subst.
           ++ simpl in E. injection E as E1 E2. subst.
              apply Forall_cons in Hantes as [H _].
              exfalso. by apply (H i).
      * rewrite IH. split.
        -- intros (antes & idx & despues & -> & Hantes & Hidx & Hm).
           exists (Some i :: antes), idx, despues. split_and!; auto; try lia.
           apply Forall_cons. split; [|done]. by intros ? [= <-].
        -- intros (antes & idx & despues & E & Hantes & Hidx & Hm).
           destruct antes as [|e antes].
           ++ simpl in E. injection E as E1 E2. subst. done.
           ++ simpl in E. injection E as E1 E2. subst.
              apply Forall_cons in Hantes as [_ Hantes].
              exists antes, idx, despues. split_and!; auto; try lia.
    + rewrite IH. split.
      * intros (antes & idx & despues & -> & Hantes & Hidx & Hm).
        exists (None :: antes), idx, despues. split_and!; auto; try lia.
        apply Forall_cons. split; [|done]. by intros ? [=].
      * intros (antes & idx & despues & E & Hantes & Hidx & Hm).
        destruct antes as [|e antes]; [done|].
        simpl in E. injection E as E1 E2. subst.
        apply Forall_cons in Hantes as [_ Hantes].
        exists antes, idx, despues. split_and!; auto; try lia.
Qed.

(** Nothing is returned exactly when nothing of what is typed is an index
    of the list. *)
Lemma decide_accion_hum_None (tecleado : list (option Z)) (movs : list mov) :
  decide_accion_hum tecleado movs = None
  ↔ Forall (λ e, ∀ i, e = Some i → ¬ (0 ≤ i < Z.of_nat (length movs))) tecleado.
Proof.
  induction tecleado as [|e l IH]; simpl.
  - split; [intros _; apply Forall_nil_2 | done].
  - destruct e as [i|].
    + destruct (decide (0 ≤ i < Z.of_nat (length movs))) as [Hi|Hi].
      * split.
        -- intros Hm.
           destruct (lookup_lt_is_Some_2 movs (Z.to_nat i)) as [m Hm']; [lia|].
           congruence.
        -- intros H. apply Forall_cons in H as [H _]. exfalso. by apply (H i).
      * rewrite IH. split.
        -- intros H. apply Forall_cons. split; [|done]. by intros ? [= <-].
        -- intros H. by apply Forall_cons in H as [_ H].
    + rewrite IH. split.
      * intros H. apply Forall_cons. split; [|done]. by intros ? [=].
      * intros H. by apply Forall_cons in H as [_ H].
Qed.

Lemma decide_accion_hum_elem (tecleado : list (option Z)) (movs : list mov)
    (m : mov) :
  decide_accion_hum tecleado movs = Some m → m ∈ movs.
Proof.
  induction tecleado as [|e l IH]; simpl; [done|].
  destruct e as [i|]; [|done].
  destruct (decide (0 ≤ i < Z.of_nat (length movs))); [|done].
  intros H. apply list_elem_of_lookup. eauto.
Qed.

Lemma decide_en_vivo_elem (self : JugadorMiniChessMaq) (z : sorteo)
    (movs : list mov) (t : tablero) (token : Z) :
  forma t → Forall mov_en_tablero movs → movs ≠ [] →
  ∃ m, decide_en_vivo self z movs t token = Some m ∧ m ∈ movs.
Proof.
  intros Hf Hmovs Hne. unfold decide_en_vivo.
  destruct (decide_accion_bien_formado self (uniforme z) (eleccion z) movs
              1%positive token {[ 1%positive := t ]} t Hf
              ltac:(apply lookup_singleton_eq) Hmovs Hne)
    as (m & h' & -> & Hin & _).
  exists m. done.
Qed.

(** ** A game ends *)

Lemma mismo_saber_refl (j : JugadorMiniChessMaq) : mismo_saber j j.
Proof. by repeat split. Qed.

Lemma mismo_saber2_refl (j : Jugador2) : mismo_saber2 j j.
Proof. destruct j; [apply mismo_saber_refl | done]. Qed.

Lemma mismo_saber_trans (j1 j2 j3 : JugadorMiniChessMaq) :
  mismo_saber j1 j2 → mismo_saber j2 j3 → mismo_saber j1 j3.
Proof.
  intros (?&?&?&?&?) (?&?&?&?&?). repeat split; congruence.
Qed.

Lemma mismo_saber2_trans (j1 j2 j3 : Jugador2) :
  mismo_saber2 j1 j2 → mismo_saber2 j2 j3 → mismo_saber2 j1 j3.
Proof.
  destruct j1, j2, j3; simpl; try done.
  - apply mismo_saber_trans.
  - congruence.
Qed.

Lemma mismo_saber2_hum (j j' : Jugador2) (nombre : string) :
  mismo_saber2 j j' → j' = Hum nombre → j = Hum nombre.
Proof. destruct j, j'; simpl; try done. congruence. Qed.

(** A legal move, then the evaluation: both succeed, and unless the game
    is over the bound on the turns left has gone down and is not 0. *)
Lemma movimiento_legal_avanza (s : JuegoMiniChess) (movs : list mov) (accion : mov) :
  sesion_bien_formada s →
  __calcular_movimientos_validos (_tablero s) (_siguiente_jugador s) = Some movs →
  accion ∈ movs →
  ∃ s1 clave res,
    __actualiza_estado s accion = Some s1
    ∧ _estado s1 = Some clave
    ∧ __calcula_ganador s1 = Some (res, con_fin (bool_decide (res ≠ None)) s1)
    ∧ sesion_bien_formada s1
    ∧ (res = None → (0 < turnos_max s1 < turnos_max s)%nat).
Proof.
  intros (Hf & Hnf & Hnc) Hmovs Hin.
  destruct (movimientos_validos_elem _ _ _ _ Hf Hmovs Hin)
    as (_ & Ho & Hd & Hne & _ & _).
  destruct accion as [origen destino]. simpl in Ho, Hd, Hne.
  destruct (actualiza_estado_simula s origen destino Hf Hnf Hnc Ho Hd)
    as (t' & Hsim & Hf' & _ & Hact).
  pose proof (simula_piezas _ _ _ _ Hf Ho Hd Hne Hsim) as Hp.
  rewrite Hact. eexists _, _. 
  match goal with
  | |- ∃ res, Some ?s1 = _ ∧ _ =>
      destruct (calcula_ganador_forma s1 Hf')
        as (res & l1 & l2 & _ & _ & Hres & Hnone & _)
  end.
  exists res. split; [done|]. split; [done|]. split; [exact Hres|].
  split; [done|].
  intros Hr. apply Hnone in Hr as [_ Hc]. cbn in Hc.
  unfold turnos_max. cbn.
  destruct (decide (celda (_tablero s) destino = 0)) as [E|E].
  - rewrite decide_False in Hc |- * by (intros H; by apply H). lia.
  - rewrite decide_True in Hc |- * by done. lia.
Qed.

(** One turn from a well-shaped session: it is played, or a person is
    left waiting. *)
Lemma turno_bien_formado (z : sorteo) (p : Partida) :
  sesion_bien_formada (juego p) → _fin (juego p) = false →
  (∃ p' sale,
     turno z p = Some (p', sale)
     ∧ sesion_bien_formada (juego p')
     ∧ mismo_saber (_jugador1 p) (_jugador1 p')
     ∧ mismo_saber2 (_jugador2 p) (_jugador2 p')
     ∧ (sale = false →
        _fin (juego p') = false
        ∧ (0 < turnos_max (juego p') < turnos_max (juego p))%nat))
  ∨ (turno z p = None ∧ espera z p).
Proof.
  intros Hs Hfin. pose proof Hs as (Hf & Hnf & Hnc).
  destruct (calcular_movimientos_validos_is_Some (_tablero (juego p))
              (_siguiente_jugador (juego p)) Hf) as [movs Hmovs].
  unfold turno. rewrite Hmovs. cbn.
  destruct (decide (length movs = 0%nat)) as [E|E].
  { left. exists p, true.
    split_and!; auto using mismo_saber_refl, mismo_saber2_refl. done. }
  assert (movs ≠ []) as Hne by (by destruct movs).
  pose proof (movimientos_validos_en_tablero _ _ _ Hf Hmovs) as Hen.
  assert (∀ accion, accion ∈ movs →
            ∃ s1 clave res,
              __actualiza_estado (juego p) accion = Some s1
              ∧ _estado s1 = Some clave
              ∧ __calcula_ganador s1
                = Some (res, con_fin (bool_decide (res ≠ None)) s1)
              ∧ sesion_bien_formada s1
              ∧ (res = None →
                 (0 < turnos_max s1 < turnos_max (juego p))%nat))
    as Havanza by (intros accion; by apply movimiento_legal_avanza).
  assert (∀ res : option Z, bool_decide (res ≠ None) = false → res = None)
    as Hsale.
  { intros res H. apply bool_decide_eq_false in H.
    destruct res; [|done]. exfalso. by apply H. }
  destruct (decide (_siguiente_jugador (juego p) = 1)) as [E1|E1].
  - left.
    destruct (decide_en_vivo_elem (_jugador1 p) z movs (_tablero (juego p))
                (_siguiente_jugador (juego p)) Hf Hen Hne) as (accion & -> & Hin).
    cbn.
    destruct (Havanza accion Hin) as (s1 & clave & res & -> & Hclave & Hres & Hs1 & Hmed).
    cbn. rewrite Hclave. cbn. rewrite Hres. cbn.
    eexists _, _. split; [done|]. cbn [juego _jugador1 _jugador2].
    split; [exact Hs1|]. split; [by repeat split|].
    split; [apply mismo_saber2_refl|].
    intros Hb. apply Hsale in Hb. rewrite Hb. split; [done|]. by apply Hmed.
  - assert ((∃ accion,
               match _jugador2 p with
               | Maq j => decide_en_vivo j z movs (_tablero (juego p))
                            (_siguiente_jugador (juego p))
               | Hum _ => decide_accion_hum (tecleado z) movs
               end = Some accion ∧ accion ∈ movs)
            ∨ (match _jugador2 p with
               | Maq j => decide_en_vivo j z movs (_tablero (juego p))
                            (_siguiente_jugador (juego p))
               | Hum _ => decide_accion_hum (tecleado z) movs
               end = None ∧ espera z p))
      as [(accion & -> & Hin) | [-> Hesp]].
    { destruct (_jugador2 p) as [j|nombre] eqn:Ej2.
      - left. by apply decide_en_vivo_elem.
      - destruct (decide_accion_hum (tecleado z) movs) as [accion|] eqn:Eacc.
        + left. exists accion. split; [done|].
          by apply (decide_accion_hum_elem (tecleado z)).
        + right. split; [done|]. split; [done|]. split; [done|].
          exists nombre, movs. split; [done|]. split; [done|]. split; [done|].
          by apply decide_accion_hum_None. }
    + left. cbn.
      destruct (Havanza accion Hin) as (s1 & clave & res & -> & Hclave & Hres & Hs1 & Hmed).
      cbn. rewrite Hclave. cbn. rewrite Hres. cbn.
      eexists _, _. split; [done|]. cbn [juego _jugador1 _jugador2].
      split; [exact Hs1|]. split; [apply mismo_saber_refl|].
      split; [destruct (_jugador2 p); [by repeat split | done]|].
      intros Hb. apply Hsale in Hb. rewrite Hb. split; [done|]. by apply Hmed.
    + right. by split.
Qed.

(** The loop of [jugar] from a well-shaped session, with a unit of fuel
    for each turn of the bound: it is left, or a person is left waiting
    on a turn that the loop gets to. *)
Lemma bucle_jugar_termina (fuel : nat) : ∀ (azar : nat → sorteo) (n : nat) (p : Partida),
  sesion_bien_formada (juego p) →
  (turnos_max (juego p) ≤ fuel)%nat → (0 < fuel)%nat →
  (∃ p', bucle_jugar fuel azar n p = Some p'
     ∧ sesion_bien_formada (juego p')
     ∧ mismo_saber (_jugador1 p) (_jugador1 p')
     ∧ mismo_saber2 (_jugador2 p) (_jugador2 p'))
  ∨ (bucle_jugar fuel azar n p = None
     ∧ ∃ k q, mismo_saber2 (_jugador2 p) (_jugador2 q)
         ∧ tras_turnos azar n k p = Some q
         ∧ espera (azar (n + k)%nat) q).
Proof.
  induction fuel as [|fuel IH]; intros azar n p Hs Hfuel Hpos; [lia|].
  cbn [bucle_jugar].
  destruct (_fin (juego p)) eqn:Hfin.
  { left. exists p. split_and!; auto using mismo_saber_refl, mismo_saber2_refl. }
  destruct (turno_bien_formado (azar n) p Hs Hfin)
    as [(p1 & sale & Ht & Hs1 & Hj1 & Hj2 & Hsale) | [Ht Hesp]].
  - rewrite Ht. cbn. destruct sale.
    { left. exists p1. split_and!; auto. }
    destruct (Hsale eq_refl) as [_ Hmed].
    destruct (IH azar (S n) p1 Hs1)
      as [(p' & -> & Hs' & Hj1' & Hj2') | (-> & k & q & Hj2' & Hk & Hesp)];
      [lia | lia | |].
    + left. exists p'. split_and!; auto.
      * by apply (mismo_saber_trans _ _ _ Hj1).
      * by apply (mismo_saber2_trans _ _ _ Hj2).
    + right. split; [done|]. exists (S k), q.
      split; [by apply (mismo_saber2_trans _ _ _ Hj2)|].
      split.
      * cbn [tras_turnos]. rewrite Hfin, Ht. exact Hk.
      * by replace (n + S k)%nat with (S n + k)%nat by lia.
  - rewrite Ht. cbn. right. split; [done|]. exists 0%nat, p.
    split; [apply mismo_saber2_refl|]. split; [done|].
    by rewrite Nat.add_0_r.
Qed.

(** The players that a turn and the loop leave differ from the ones they
    found by their traces at most, however the turn goes. *)
Lemma turno_mismo_saber (z : sorteo) (p p' : Partida) (sale : bool) :
  turno z p = Some (p', sale) →
  mismo_saber (_jugador1 p) (_jugador1 p')
  ∧ mismo_saber2 (_jugador2 p) (_jugador2 p').
Proof.
  unfold turno. intros H.
  apply bind_Some in H as (movs & _ & H).
  destruct (decide (length movs = 0%nat)).
  { injection H as <- <-. split; [apply mismo_saber_refl | apply mismo_saber2_refl]. }
  destruct (decide (_siguiente_jugador (juego p) = 1)).
  - apply bind_Some in H as (accion & _ & H).
    apply bind_Some in H as (s1 & _ & H).
    apply bind_Some in H as (estado & _ & H).
    apply bind_Some in H as ([res s2] & _ & H).
    injection H as <- <-. cbn [_jugador1 _jugador2].
    split; [by repeat split | apply mismo_saber2_refl].
  - apply bind_Some in H as (accion & _ & H).
    apply bind_Some in H as (s1 & _ & H).
    apply bind_Some in H as (estado & _ & H).
    apply bind_Some in H as ([res s2] & _ & H).
    injection H as <- <-. cbn [_jugador1 _jugador2].
    split; [apply mismo_saber_refl|].
    destruct (_jugador2 p); [by repeat split | done].
Qed.

Lemma bucle_jugar_mismo_saber (fuel : nat) :
  ∀ (azar : nat → sorteo) (n : nat) (p p' : Partida),
  bucle_jugar fuel azar n p = Some p' →
  mismo_saber (_jugador1 p) (_jugador1 p')
  ∧ mismo_saber2 (_jugador2 p) (_jugador2 p').
Proof.
  induction fuel as [|fuel IH]; intros azar n p p' H; [done|].
  cbn [bucle_jugar] in H.
  destruct (_fin (juego p)).
  { injection H as <-. split; [apply mismo_saber_refl | apply mismo_saber2_refl]. }
  apply bind_Some in H as ([p1 sale] & Ht & H).
  apply turno_mismo_saber in Ht as [Hj1 Hj2].
  destruct sale.
  { by injection H as <-. }
  apply IH in H as [Hj1' Hj2']. split.
  - by apply (mismo_saber_trans _ _ _ Hj1).
  - by apply (mismo_saber2_trans _ _ _ Hj2).
Qed.

(** What [jugar] returns, when it returns, in terms of the state [p1] at
    the end of its loop and of the two rewards. *)
Lemma jugar_resultado (fuel : nat) (azar : nat → sorteo) (p p' : Partida) :
  jugar fuel azar p = Some p' →
  ∃ p1 r1 r2 s,
    bucle_jugar fuel azar 0 p = Some p1
    ∧ ((r1 = 1 ∧ r2 = 0) ∨ (r1 = 0 ∧ r2 = 1) ∨ (r1 = 1 # 2 ∧ r2 = 1 # 2))%Q
    ∧ p' = {| juego := __reset s;
              _jugador1 :=
                reset (con_experiencia
                         (propaga_spec (_tasa_aprendizaje (_jugador1 p1))
                            (_descuento_gamma (_jugador1 p1))
                            (reverse (_estados_juego_actual (_jugador1 p1)))
                            (_experiencia_estado_valor (_jugador1 p1)) r1)
                         (_jugador1 p1));
              _jugador2 :=
                match _jugador2 p1 with
                | Maq j =>
                    Maq (reset (con_experiencia
                                  (propaga_spec (_tasa_aprendizaje j)
                                     (_descuento_gamma j)
                                     (reverse (_estados_juego_actual j))
                                     (_experiencia_estado_valor j) r2)
                                  j))
                | Hum nombre => Hum nombre
                end |}.
Proof.
  unfold jugar. intros H.
  apply bind_Some in H as (p1 & Hb & H).
  apply bind_Some in H as ([res s1] & _ & H).
  apply bind_Some in H as (p2 & Hr & H).
  injection H as <-.
  unfold __recompensa in Hr. cbn [juego _jugador1 _jugador2] in Hr.
  apply bind_Some in Hr as ([res' s2] & _ & Hr).
  assert (∃ r1 r2,
            ((r1 = 1 ∧ r2 = 0) ∨ (r1 = 0 ∧ r2 = 1)
             ∨ (r1 = 1 # 2 ∧ r2 = 1 # 2))%Q
            ∧ (if decide (res' = Some 1) then (1%Q, 0%Q)
               else if decide (res' = Some (-1)) then (0%Q, 1%Q)
               else ((1 # 2)%Q, (1 # 2)%Q)) = (r1, r2))
    as (r1 & r2 & Hcasos & Er).
  { repeat case_decide; eexists _, _; (split; [|done]); auto. }
  rewrite Er in Hr.
  rewrite retropropaga_recompensa_spec in Hr.
  apply bind_Some in Hr as (j1 & Hj1 & Hr). injection Hj1 as <-.
  apply bind_Some in Hr as (j2 & Hj2 & Hr). injection Hr as <-.
  exists p1, r1, r2, s2. split; [done|]. split; [done|].
  cbn [juego _jugador1 _jugador2].
  destruct (_jugador2 p1) as [j|nombre].
  - rewrite retropropaga_recompensa_spec in Hj2. by injection Hj2 as <-.
  - by injection Hj2 as <-.
Qed.

(** [jugar] after a loop that ends on a well-shaped session. *)
Lemma jugar_forma (fuel : nat) (azar : nat → sorteo) (p p1 : Partida) :
  bucle_jugar fuel azar 0 p = Some p1 → sesion_bien_formada (juego p1) →
  ∃ p', jugar fuel azar p = Some p' ∧ juego p' = JuegoMiniChess_init.
Proof.
  intros Hb (Hf1 & Hnf & Hnc).
  destruct (calcula_ganador_forma (juego p1) Hf1)
    as (res & l1 & l2 & _ & _ & Hres & _).
  destruct (calcula_ganador_forma
              (con_fin (bool_decide (res ≠ None)) (juego p1)) Hf1)
    as (res' & l1' & l2' & _ & _ & Hres' & _).
  unfold jugar. rewrite Hb. cbn. rewrite Hres. cbn.
  unfold __recompensa. cbn [juego _jugador1 _jugador2]. rewrite Hres'. cbn.
  destruct (if decide (res' = Some 1) then (1%Q, 0%Q)
            else if decide (res' = Some (-1)) then (0%Q, 1%Q)
            else ((1 # 2)%Q, (1 # 2)%Q)) as [r1 r2].
  rewrite retropropaga_recompensa_spec. cbn.
  destruct (_jugador2 p1) as [j|nombre]; cbn.
  - rewrite retropropaga_recompensa_spec. cbn.
    eexists. split; [done|].
    unfold __reset, JuegoMiniChess_init. cbn. by rewrite Hnf, Hnc.
  - eexists. split; [done|].
    unfold __reset, JuegoMiniChess_init. cbn. by rewrite Hnf, Hnc.
Qed.

Lemma sesion_inicial_bien_formada : sesion_bien_formada JuegoMiniChess_init.
Proof. split; [split; [reflexivity | repeat constructor]|]. by split. Defined.

(** A game from a well-shaped session, with a unit of fuel for each turn
    of the bound: it is played to the end, or a person is left waiting. *)
Lemma jugar_dicotomia (fuel : nat) (azar : nat → sorteo) (p : Partida) :
  sesion_bien_formada (juego p) →
  (turnos_max (juego p) ≤ fuel)%nat → (0 < fuel)%nat →
  (∃ p', jugar fuel azar p = Some p' ∧ juego p' = JuegoMiniChess_init)
  ∨ (jugar fuel azar p = None
     ∧ ∃ nombre k q,
         _jugador2 p = Hum nombre
         ∧ tras_turnos azar 0 k p = Some q
         ∧ espera (azar k) q).
Proof.
  intros Hs Hfuel Hpos.
  destruct (bucle_jugar_termina fuel azar 0 p Hs Hfuel Hpos)
    as [(p1 & Hb & Hs1 & _) | (Hb & k & q & Hj2 & Hk & Hesp)].
  - left. by apply (jugar_forma fuel azar p p1).
  - right. split; [unfold jugar; by rewrite Hb|].
    pose proof Hesp as (_ & _ & nombre & movs & Hq & _).
    exists nombre, k, q. split; [|done].
    by apply (mismo_saber2_hum _ _ _ Hj2).
Qed.

(** What a game leaves of its players, when it returns. *)
Lemma jugar_jugadores (fuel : nat) (azar : nat → sorteo) (p p' : Partida) :
  jugar fuel azar p = Some p' →
  _estados_juego_actual (_jugador1 p') = []
  ∧ name (_jugador1 p') = name (_jugador1 p)
  ∧ _tasa_exploracion (_jugador1 p') = _tasa_exploracion (_jugador1 p)
  ∧ _tasa_aprendizaje (_jugador1 p') = _tasa_aprendizaje (_jugador1 p)
  ∧ _descuento_gamma (_jugador1 p') = _descuento_gamma (_jugador1 p)
  ∧ match _jugador2 p, _jugador2 p' with
    | Maq j, Maq j' =>
        _estados_juego_actual j' = []
        ∧ name j' = name j
        ∧ _tasa_exploracion j' = _tasa_exploracion j
        ∧ _tasa_aprendizaje j' = _tasa_aprendizaje j
        ∧ _descuento_gamma j' = _descuento_gamma j
    | Hum nombre, Hum nombre' => nombre' = nombre
    | _, _ => False
    end.
Proof.
  intros H.
  destruct (jugar_resultado _ _ _ _ H) as (p1 & r1 & r2 & s & Hb & _ & ->).
  destruct (bucle_jugar_mismo_saber _ _ _ _ _ Hb) as [(?&?&?&?&?) Hj2].
  cbn. split_and!; try done.
  destruct (_jugador2 p) as [j|n], (_jugador2 p1) as [j'|n']; simpl in Hj2;
    try done.
  destruct Hj2 as (?&?&?&?&?). cbn. by split_and!.
Qed.

Lemma jugar_conserva_cotas (fuel : nat) (azar : nat → sorteo) (p p' : Partida) :
  jugar fuel azar p = Some p' →
  (acotado (_jugador1 p) → acotado (_jugador1 p'))
  ∧ (acotado2 (_jugador2 p) → acotado2 (_jugador2 p')).
Proof.
  intros H.
  destruct (jugar_resultado _ _ _ _ H) as (p1 & r1 & r2 & s & Hb & Hr & ->).
  destruct (bucle_jugar_mismo_saber _ _ _ _ _ Hb) as [(_&_&Ea&Eg&Et) Hj2].
  assert (0 <= r1 <= 1 ∧ 0 <= r2 <= 1)%Q as [Hr1 Hr2].
  { destruct Hr as [[-> ->] | [[-> ->] | [-> ->]]]; split; lra. }
  cbn [_jugador1 _jugador2]. split.
  - intros (Ha1 & Hg1 & Ht1).
    unfold acotado. cbn. rewrite Ea, Eg, Et.
    split; [exact Ha1|]. split; [exact Hg1|].
    by apply propaga_spec_cotas.
  - intros Hac2.
    destruct (_jugador2 p) as [j|n], (_jugador2 p1) as [j'|n']; simpl in Hj2;
      try done.
    destruct Hj2 as (_&_&Ea2&Eg2&Et2). destruct Hac2 as (Ha2 & Hg2 & Ht2).
    unfold acotado2, acotado. cbn. rewrite Ea2, Eg2, Et2.
    split; [exact Ha2|]. split; [exact Hg2|].
    by apply propaga_spec_cotas.
Qed.

(** X12. A game ends unless a person is left waiting. From a session
    with a well-shaped 4x4 board, whatever the random draws and whatever
    is typed, and with [51 * pieces + (50 - no-capture counter)] turns of
    the loop allowed (356 from the initial layout; at least one), either
    [jugar] returns, and then it leaves the session as the constructor
    builds it and both traces empty, and keeps the name and the three
    rates of each agent; or the second player is a person who, on a turn
    that the loop gets to, is shown a list of legal moves that is not
    empty and types no index of it. *)
Theorem jugar_termina (fuel : nat) (azar : nat → sorteo) (p : Partida) :
  sesion_bien_formada (juego p) →
  (turnos_max (juego p) ≤ fuel)%nat → (0 < fuel)%nat →
  (∃ p', jugar fuel azar p = Some p'
     ∧ juego p' = JuegoMiniChess_init
     ∧ _estados_juego_actual (_jugador1 p') = []
     ∧ name (_jugador1 p') = name (_jugador1 p)
     ∧ _tasa_exploracion (_jugador1 p') = _tasa_exploracion (_jugador1 p)
     ∧ _tasa_aprendizaje (_jugador1 p') = _tasa_aprendizaje (_jugador1 p)
     ∧ _descuento_gamma (_jugador1 p') = _descuento_gamma (_jugador1 p)
     ∧ match _jugador2 p, _jugador2 p' with
       | Maq j, Maq j' =>
           _estados_juego_actual j' = []
           ∧ name j' = name j
           ∧ _tasa_exploracion j' = _tasa_exploracion j
           ∧ _tasa_aprendizaje j' = _tasa_aprendizaje j
           ∧ _descuento_gamma j' = _descuento_gamma j
       | Hum nombre, Hum nombre' => nombre' = nombre
       | _, _ => False
       end)
  ∨ (jugar fuel azar p = None
     ∧ ∃ nombre k q,
         _jugador2 p = Hum nombre
         ∧ tras_turnos azar 0 k p = Some q
         ∧ espera (azar k) q).
Proof.
  intros Hs Hfuel Hpos.
  destruct (jugar_dicotomia fuel azar p Hs Hfuel Hpos)
    as [(p' & Hp' & Hini) | Hesp]; [left | by right].
  exists p'. split; [done|]. split; [done|].
  by apply (jugar_jugadores fuel azar).
Qed.

Lemma jugar_termina_ejemplo :
  ∃ p', jugar 356 azar_fijo partida_inicial = Some p'
    ∧ juego p' = JuegoMiniChess_init
    ∧ _estados_juego_actual (_jugador1 p') = [].
Proof.
  destruct (jugar_termina 356 azar_fijo partida_inicial)
    as [(p' & H1 & H2 & H3 & _) | (_ & nombre & _ & _ & H & _)].
  - exact sesion_inicial_bien_formada.
  - vm_compute. lia.
  - lia.
  - exists p'. split; [exact H1|]. split; [exact H2 | exact H3].
  - discriminate H.
Defined.

(** X13. A game keeps the tables within bounds: whenever [jugar]
    returns, whatever the course of the game, an agent whose learning
    rate and discount are between 0 and 1 and whose table has all its
    values between 0 and 1 is still so after the game. This holds for
    each of the two players on its own. *)
Theorem jugar_acotado (fuel : nat) (azar : nat → sorteo) (p p' : Partida) :
  jugar fuel azar p = Some p' →
  (acotado (_jugador1 p) → acotado (_jugador1 p'))
  ∧ (acotado2 (_jugador2 p) → acotado2 (_jugador2 p')).
Proof. apply jugar_conserva_cotas. Qed.

Lemma jugar_acotado_ejemplo :
  ∃ p',
    jugar 1 azar_fijo
      {| juego := con_tablero tablero_sin_rey_j2 JuegoMiniChess_init;
         _jugador1 := JugadorMiniChessMaq_por_defecto "uno";
         _jugador2 := Maq (JugadorMiniChessMaq_por_defecto "dos") |} = Some p'
    ∧ acotado (_jugador1 p') ∧ acotado2 (_jugador2 p').
Proof.
  eexists. split; [vm_compute; reflexivity|].
  match goal with
  | |- acotado (_jugador1 ?p') ∧ _ =>
      destruct (jugar_acotado 1 azar_fijo
                  {| juego := con_tablero tablero_sin_rey_j2 JuegoMiniChess_init;
                     _jugador1 := JugadorMiniChessMaq_por_defecto "uno";
                     _jugador2 := Maq (JugadorMiniChessMaq_por_defecto "dos") |}
                  p') as [H1 H2]
  end.
  - vm_compute. reflexivity.
  - split; [apply H1 | apply H2].
    + split; [cbn; lra|]. split; [cbn; lra|]. cbn. apply map_Forall_empty.
    + split; [cbn; lra|]. split; [cbn; lra|]. cbn. apply map_Forall_empty.
Defined.

(** ** Training *)

Lemma turnos_max_inicial : turnos_max JuegoMiniChess_init = 356%nat.
Proof. by vm_compute. Qed.

(** X14. Training completes unless a person is left waiting. From a
    session with a well-shaped 4x4 board, whatever the random draws and
    whatever is typed, with 356 turns of the loop allowed in each game
    (and enough for the first one, which starts from the board it finds),
    either [fit] plays all its games to the end, or the second player is
    a person and, in one of the games, on a turn that the loop gets to,
    this person is shown a list of legal moves that is not empty and
    types no index of it. When [fit] returns after at least one game, the
    session is as the constructor builds it; and an agent whose learning
    rate and discount are between 0 and 1 and whose table has all its
    values between 0 and 1 is still so at the end of the training. *)
Theorem fit_termina (fuel : nat) (azar : nat → nat → sorteo) (rondas : nat) :
  ∀ (i : nat) (p : Partida),
  sesion_bien_formada (juego p) →
  (turnos_max (juego p) ≤ fuel)%nat → (356 ≤ fuel)%nat →
  (∃ p', fit fuel azar i rondas p = Some p'
     ∧ (rondas ≠ 0%nat → juego p' = JuegoMiniChess_init)
     ∧ (acotado (_jugador1 p) → acotado (_jugador1 p'))
     ∧ (acotado2 (_jugador2 p) → acotado2 (_jugador2 p')))
  ∨ (fit fuel azar i rondas p = None
     ∧ ∃ nombre g pg k q,
         _jugador2 p = Hum nombre
         ∧ (g < rondas)%nat
         ∧ fit fuel azar i g p = Some pg
         ∧ tras_turnos (azar (i + g)%nat) 0 k pg = Some q
         ∧ espera (azar (i + g)%nat k) q).
Proof.
  induction rondas as [|rondas IH]; intros i p Hs Hfuel H356.
  - left. exists p. by split_and!.
  - cbn [fit].
    destruct (jugar_dicotomia fuel (azar i) p Hs Hfuel ltac:(lia))
      as [(p1 & Hp1 & Hini) | (Hp1 & nombre & k & q & Hhum & Hk & Hesp)].
    + rewrite Hp1. cbn.
      destruct (jugar_conserva_cotas _ _ _ _ Hp1) as [Hc1 Hc2].
      pose proof (jugar_jugadores _ _ _ _ Hp1) as (_ & _ & _ & _ & _ & Hj2).
      destruct (IH (S i) p1)
        as [(p' & Hfit & Hjuego & Hc1' & Hc2')
           | (Hfit & nombre & g & pg & k & q & Hhum & Hg & Hpg & Hk & Hesp)].
      * rewrite Hini. exact sesion_inicial_bien_formada.
      * rewrite Hini, turnos_max_inicial. lia.
      * lia.
      * left. exists p'. split; [done|]. split; [|split; auto].
        intros _. destruct rondas; [|by apply Hjuego].
        cbn in Hfit. by injection Hfit as <-.
      * right. split; [done|]. exists nombre, (S g), pg, k, q.
        split.
        { rewrite Hhum in Hj2. destruct (_jugador2 p); [done|]. by subst. }
        split; [lia|]. split; [cbn [fit]; by rewrite Hp1|].
        by replace (i + S g)%nat with (S i + g)%nat by lia.
    + rewrite Hp1. cbn. right. split; [done|].
      exists nombre, 0%nat, p, k, q. split; [done|]. split; [lia|].
      split; [done|]. by rewrite Nat.add_0_r.
Qed.

Lemma fit_termina_ejemplo :
  ∃ p', fit 356 (λ _, azar_fijo) 0 3 partida_inicial = Some p'
    ∧ juego p' = JuegoMiniChess_init.
Proof.
  destruct (fit_termina 356 (λ _, azar_fijo) 3 0%nat partida_inicial)
    as [(p' & H1 & H2 & _) | (_ & nombre & _ & _ & _ & _ & H & _)].
  - exact sesion_inicial_bien_formada.
  - vm_compute. lia.
  - lia.
  - exists p'. split; [exact H1|]. apply H2. discriminate.
  - discriminate H.
Defined.

(** ** The last state of a game *)

(** X15. The state recorded last receives the final reward itself: when
    [guarda_estado] has just recorded a state that the trace did not hold
    before, [retropropaga_recompensa] leaves for it the value
    [v + alpha * (r - v)], where [v] is its value before (0 when it had
    none) and [r] the final reward. *)
Theorem guarda_estado_retropropaga (self : JugadorMiniChessMaq) (s : string) (r : Q) :
  s ∉ _estados_juego_actual self →
  ∃ self', retropropaga_recompensa (guarda_estado self s) r = Some self'
    ∧ _experiencia_estado_valor self' !! s
      = Some (let v := default 0%Q (_experiencia_estado_valor self !! s) in
              (v + _tasa_aprendizaje self * (r - v))%Q).
Proof.
  intros Hs. eexists. split; [apply retropropaga_recompensa_spec|].
  unfold guarda_estado.
  cbn [_estados_juego_actual _tasa_aprendizaje _descuento_gamma
       _experiencia_estado_valor con_estados con_experiencia].
  rewrite reverse_app.
  change (reverse [s]) with [s]. cbn [app propaga_spec].
  rewrite propaga_spec_fuera by by rewrite elem_of_reverse.
  by rewrite lookup_insert_eq.
Qed.

Lemma guarda_estado_retropropaga_ejemplo :
  ∃ self',
    retropropaga_recompensa
      (guarda_estado (JugadorMiniChessMaq_por_defecto "maq") "a") 1 = Some self'
    ∧ _experiencia_estado_valor self' !! "a" = Some (0 + (2 # 10) * (1 - 0))%Q.
Proof.
  apply (guarda_estado_retropropaga (JugadorMiniChessMaq_por_defecto "maq") "a" 1).
  cbn. apply not_elem_of_nil.
Defined.
